(** * CityGrid: tower placement, greedy optimisation and relay paths

    A shallow embedding of [src/main.py] (class [CityGrid]) and the
    properties its specification states about it.

    Python integers are [Z].  The NumPy array [self.grid] is a list of rows
    of booleans, the registry [self.towers] is a list of [(x, y, range)]
    tuples in insertion order, and the NetworkX graph is its adjacency
    dictionary of dictionaries, a [gmap Z (gmap Z Z)] from node to
    neighbour to edge weight.  Exceptions are explicit: a function either
    returns or raises, and a method that mutates [self] before raising
    hands back the mutated object together with the exception.

    [budget] and the ['cost'] entries are Python numbers.  The optimiser is
    first given at [int] arguments, as its docstring types the budget and
    as the script calls it; the same loop over any number type, and its
    instance at [float], follow it. *)

From Stdlib Require Import ZArith QArith Lia SpecFloat.
From stdpp Require Import gmap list.

Local Open Scope Z_scope.

(** ** Exceptions and results *)

Inductive exn : Set :=
| ValueError
| IndexError
| UnboundLocalError
| NodeNotFound
| NetworkXNoPath.

(** A call returns a value, raises, or (for the searches that the model
    runs on a step counter) exhausts the counter. *)
Inductive result (A : Type) : Type :=
| Ok (a : A)
| Raise (e : exn)
| OutOfFuel.
Arguments Ok {A} a.
Arguments Raise {A} e.
Arguments OutOfFuel {A}.

#[global] Instance exn_eq_dec : EqDecision exn.
Proof. solve_decision. Defined.

#[global] Instance result_eq_dec {A} `{EqDecision A} : EqDecision (result A).
Proof. solve_decision. Defined.

#[global] Instance result_bind : MBind result := λ A B k r,
  match r with
  | Ok a => k a
  | Raise e => Raise e
  | OutOfFuel => OutOfFuel
  end.

(** A [for] loop over a list whose body may raise. *)
Fixpoint for_each {A S : Type} (l : list A) (body : S → A → result S) (s : S)
  : result S :=
  match l with
  | [] => Ok s
  | a :: l' => s' ← body s a ; for_each l' body s'
  end.

(** [range(k)] *)
Definition py_range (k : Z) : list Z := seqZ 0 k.

(** [l[i]] on a sequence: a negative index counts from the end, an index
    outside the sequence raises [IndexError]. *)
Definition py_index {A} (l : list A) (i : Z) : result A :=
  let k := if i <? 0 then i + Z.of_nat (length l) else i in
  if 0 <=? k then
    match l !! Z.to_nat k with
    | Some a => Ok a
    | None => Raise IndexError
    end
  else Raise IndexError.

(** ** The data model *)

(** A tower is the tuple [(x, y, range)]. *)
Definition tower : Type := Z * Z * Z.

Record CityGrid : Type := mkCityGrid {
  n : Z;
  m : Z;
  grid : list (list bool);
  towers : list tower
}.

Definition set_towers (s : CityGrid) (ts : list tower) : CityGrid :=
  {| n := n s; m := m s; grid := grid s; towers := ts |}.

(** The shape [np.random.rand(n, m)] gives the array: [n] rows of [m]
    cells. *)
Definition shaped (s : CityGrid) : Prop :=
  0 ≤ n s ∧ 0 ≤ m s ∧
  length (grid s) = Z.to_nat (n s) ∧
  Forall (λ row, length row = Z.to_nat (m s)) (grid s).

(** [self.grid[x][y]] *)
Definition grid_at (s : CityGrid) (x y : Z) : result bool :=
  row ← py_index (grid s) x ; py_index row y.

(** ** [__init__]

    [np.random.rand(n, m)] draws one number of [[0, 1)] per cell; the draws
    are the argument [u].  A float is a rational and [>] on floats is exact,
    so the draws and the probability are in [Q].  The probability is
    optional and defaults to 0.3.  A negative dimension makes
    [np.random.rand] raise [ValueError]. *)
Definition default_obstructed_probability : Q := 3 # 10.

Definition init (rows cols : Z) (obstructed_probability : option Q)
    (u : Z → Z → Q) : result CityGrid :=
  let p := default default_obstructed_probability obstructed_probability in
  if (rows <? 0) || (cols <? 0) then Raise ValueError
  else Ok {| n := rows;
             m := cols;
             grid := (λ x, (λ y, negb (Qle_bool (u x y) p)) <$> py_range cols)
                       <$> py_range rows;
             towers := [] |}.

(** ** [place_tower] *)
Definition place_tower (s : CityGrid) (x y range : Z) : result CityGrid :=
  if (0 <=? x) && (x <? n s) && ((0 <=? y) && (y <? m s)) then
    b ← grid_at s x y ;
    if (b : bool) then Ok (set_towers s (towers s ++ [(x, y, range)]))
    else Ok s
  else Ok s.

(** ** [optimize_tower_placement] *)

(** A tower type is the dictionary with the keys ['range'], ['coverage']
    and ['cost']. *)
Record tower_type : Type := mkTowerType {
  range : Z;
  coverage : Z;
  cost : Z
}.

(** The local variables of the method that outlive one statement.
    [distance] is bound only by the loop over [self.towers]: it is [None]
    until that loop has run its body once, and it is never reset. *)
Record locals : Type := mkLocals {
  best_tower : option (Z * Z);
  best_coverage : Z;
  best_distance : Z;
  distance : option Z
}.

(** The loop over [self.towers] for the cell [(x, y)]: counts the towers
    whose range reaches the cell and leaves [distance] at the last tower's
    squared distance. *)
Definition cover_step (x y : Z) (acc : Z * option Z) (t : tower)
  : Z * option Z :=
  let '(tx, ty, trange) := t in
  let d := (x - tx) ^ 2 + (y - ty) ^ 2 in
  (if d <=? trange ^ 2 then acc.1 + 1 else acc.1, Some d).

Definition cover_loop (x y : Z) (ts : list tower) (dist : option Z)
  : Z * option Z :=
  foldl (cover_step x y) (0, dist) ts.

(** The body of the two nested [for] loops, at the cell [(x, y)]. *)
Definition scan_cell (s : CityGrid) (t : tower_type) (x : Z) (loc : locals)
    (y : Z) : result locals :=
  b ← grid_at s x y ;
  if (b : bool) then
    let '(total_coverage, dist) := cover_loop x y (towers s) (distance loc) in
    if (total_coverage =? 0) && (best_coverage loc <? coverage t) then
      match dist with
      | Some d =>
          Ok {| best_tower := Some (x, y);
                best_coverage := coverage t;
                best_distance := d;
                distance := dist |}
      | None => Raise UnboundLocalError
      end
    else
      Ok {| best_tower := best_tower loc;
            best_coverage := best_coverage loc;
            best_distance := best_distance loc;
            distance := dist |}
  else Ok loc.

(** [for x in range(self.n): for y in range(self.m): ...] *)
Definition scan (s : CityGrid) (t : tower_type) (loc : locals)
  : result locals :=
  for_each (py_range (n s))
    (λ loc x, for_each (py_range (m s)) (scan_cell s t x) loc) loc.

(** How a method call ends: it returns, it raises, or the model's loop
    counter ran out. *)
Inductive completion : Set :=
| Returned
| Raised (e : exn)
| FuelSpent.

(** [while remaining_budget >= tower_type['cost']: ...] for one tower type.
    The result carries the object as mutated so far and the binding of the
    local [distance]. *)
Fixpoint while_budget (fuel : nat) (t : tower_type) (s : CityGrid)
    (dist : option Z) (remaining_budget : Z)
  : CityGrid * option Z * completion :=
  match fuel with
  | O => (s, dist, FuelSpent)
  | S fuel' =>
      if cost t <=? remaining_budget then
        match scan s t {| best_tower := None; best_coverage := 0;
                          best_distance := 0; distance := dist |} with
        | Raise e => (s, dist, Raised e)
        | OutOfFuel => (s, dist, FuelSpent)
        | Ok loc =>
            match best_tower loc with
            | Some (x, y) =>
                match place_tower s x y (range t) with
                | Raise e => (s, distance loc, Raised e)
                | OutOfFuel => (s, distance loc, FuelSpent)
                | Ok s' =>
                    while_budget fuel' t s' (distance loc)
                      (remaining_budget - cost t)
                end
            | None => (s, distance loc, Returned)
            end
        end
      else (s, dist, Returned)
  end.

(** [for tower_type in tower_types: ...] *)
Fixpoint optimize_types (fuel : nat) (budget : Z) (tower_types : list tower_type)
    (s : CityGrid) (dist : option Z) : CityGrid * option Z * completion :=
  match tower_types with
  | [] => (s, dist, Returned)
  | t :: rest =>
      match while_budget fuel t s dist budget with
      | (s', dist', Returned) => optimize_types fuel budget rest s' dist'
      | stopped => stopped
      end
  end.

(** The cells in row-major order. *)
Definition cells (s : CityGrid) : list (Z * Z) :=
  x ← py_range (n s); (λ y, (x, y)) <$> py_range (m s).

(** One pass of the [while] loop either stops or appends a tower on a cell
    that no tower covered, and the new tower covers its own cell; so the
    loop runs at most once more than the grid has cells. *)
Definition loop_bound (s : CityGrid) : nat := S (length (cells s)).

Definition optimize_tower_placement (s : CityGrid) (budget : Z)
    (tower_types : list tower_type) : CityGrid * completion :=
  let r := optimize_types (loop_bound s) budget tower_types s None in
  (r.1.1, r.2).

(** ** The optimiser at other numbers

    Nothing in the method fixes the type of [budget] and of ['cost']: the
    loop applies [>=] (line 74) and [-] (line 97) to them and nothing
    else. *)
Class Number (N : Type) : Type := {
  number_ge : N → N → bool;
  number_sub : N → N → N
}.

(** [int]: both operations are exact. *)
#[global] Instance int_number : Number Z :=
  {| number_ge a b := b <=? a; number_sub := Z.sub |}.

(** [float]: an IEEE 754 binary64 number, 53 bits of precision.  [-]
    rounds to the nearest float, ties to even; [>=] is exact and false
    when an operand is not a number. *)
Definition float : Type := spec_float.

#[global] Instance float_number : Number float :=
  {| number_ge a b := SFleb b a; number_sub := SFsub 53 1024 |}.

(** [float(z)] and [a / b] on floats, for writing float literals: a
    decimal literal such as [0.1] is the float nearest to one tenth, which
    is what the correctly rounded [1.0 / 10.0] gives. *)
Definition float_of_int (z : Z) : float := binary_normalize 53 1024 z 0 false.

Definition float_div : float → float → float := SFdiv 53 1024.

(** The rational a finite float stands for, in lowest terms. *)
Definition float_value (f : float) : option Q :=
  match f with
  | S754_zero _ => Some 0%Q
  | S754_finite sign mantissa e =>
      Some (Qred (inject_Z (if sign then Z.neg mantissa else Z.pos mantissa)
                  * (2 # 1) ^ e))%Q
  | S754_infinity _ | S754_nan => None
  end.

(** A tower type whose cost is a number of type [N]. *)
Record tower_type_of (N : Type) : Type := mkTowerTypeOf {
  range_of : Z;
  coverage_of : Z;
  cost_of : N
}.
Arguments mkTowerTypeOf {N} _ _ _.
Arguments range_of {N} _.
Arguments coverage_of {N} _.
Arguments cost_of {N} _.

(** The scan reads ['coverage'] and nothing else of the type, so it is the
    scan above. *)
Definition scanned {N : Type} (t : tower_type_of N) : tower_type :=
  {| range := range_of t; coverage := coverage_of t; cost := 0 |}.

(** The type with an [int] cost, as the definitions above take it. *)
Definition int_type (t : tower_type_of Z) : tower_type :=
  {| range := range_of t; coverage := coverage_of t; cost := cost_of t |}.

(** Lines 74-99 *)
Fixpoint while_budget_of {N : Type} `{Number N} (fuel : nat)
    (t : tower_type_of N) (s : CityGrid) (dist : option Z)
    (remaining_budget : N) : CityGrid * option Z * completion :=
  match fuel with
  | O => (s, dist, FuelSpent)
  | S fuel' =>
      if number_ge remaining_budget (cost_of t) then
        match scan s (scanned t)
                {| best_tower := None; best_coverage := 0;
                   best_distance := 0; distance := dist |} with
        | Raise e => (s, dist, Raised e)
        | OutOfFuel => (s, dist, FuelSpent)
        | Ok loc =>
            match best_tower loc with
            | Some (x, y) =>
                match place_tower s x y (range_of t) with
                | Raise e => (s, distance loc, Raised e)
                | OutOfFuel => (s, distance loc, FuelSpent)
                | Ok s' =>
                    while_budget_of fuel' t s' (distance loc)
                      (number_sub remaining_budget (cost_of t))
                end
            | None => (s, distance loc, Returned)
            end
        end
      else (s, dist, Returned)
  end.

(** Lines 72-73 *)
Fixpoint optimize_types_of {N : Type} `{Number N} (fuel : nat) (budget : N)
    (tower_types : list (tower_type_of N)) (s : CityGrid) (dist : option Z)
  : CityGrid * option Z * completion :=
  match tower_types with
  | [] => (s, dist, Returned)
  | t :: rest =>
      match while_budget_of fuel t s dist budget with
      | (s', dist', Returned) => optimize_types_of fuel budget rest s' dist'
      | stopped => stopped
      end
  end.

Definition optimize_tower_placement_of {N : Type} `{Number N} (s : CityGrid)
    (budget : N) (tower_types : list (tower_type_of N))
  : CityGrid * completion :=
  let r := optimize_types_of (loop_bound s) budget tower_types s None in
  (r.1.1, r.2).

(** ** [find_reliable_path] *)

(** [nx.Graph()]: the adjacency dictionary, node to neighbour to the
    ['weight'] attribute of the edge.  A node is in the graph when it is a
    key of the outer dictionary. *)
Abbreviation Graph := (gmap Z (gmap Z Z)).

(** [G.add_edge(u, v, weight=w)]: both endpoints become nodes if they are
    not yet, and the edge is stored under both, overwriting the weight. *)
Definition add_edge (G : Graph) (u v w : Z) : Graph :=
  let G1 := <[u := <[v := w]> (default ∅ (G !! u))]> G in
  <[v := <[u := w]> (default ∅ (G1 !! v))]> G1.

Definition edge_weight (G : Graph) (u v : Z) : option Z :=
  nb ← G !! u; nb !! v.

Definition has_node (G : Graph) (u : Z) : bool :=
  bool_decide (is_Some (G !! u)).

(** [enumerate(l)] *)
Definition enumerate {A} (l : list A) : list (Z * A) :=
  zip (seqZ 0 (Z.of_nat (length l))) l.

(** The squared distance of line 119. *)
Definition sq_dist (t o : tower) : Z :=
  (t.1.1 - o.1.1) ^ 2 + (t.1.2 - o.1.2) ^ 2.

(** The body of the inner loop of lines 115-121. *)
Definition link (i : Z) (t : tower) (G : Graph) (jo : Z * tower) : Graph :=
  let '(j, other_tower) := jo in
  if i =? j then G
  else
    let d := sq_dist t other_tower in
    if d <=? t.2 ^ 2 then add_edge G i j d else G.

(** Lines 112-121. *)
Definition build_graph (ts : list tower) : Graph :=
  foldl (λ G it, foldl (link it.1 it.2) G (enumerate ts)) ∅ (enumerate ts).

(** *** [nx.shortest_path]

    NetworkX is a library the program calls; the code of
    [nx.shortest_path] is not among the sources. *)

(** A fringe entry: the distance, the node, and the path to the node. *)
Definition entry : Type := Z * Z * list Z.

Fixpoint pop_min (e : entry) (q : list entry) : entry * list entry :=
  match q with
  | [] => (e, [])
  | e' :: q' =>
      if e'.1.1 <? e.1.1 then
        let '(mn, r) := pop_min e' q' in (mn, e :: r)
      else
        let '(mn, r) := pop_min e q' in (mn, e' :: r)
  end.

Definition push_neighbours (G : Graph) (d v : Z) (p : list Z) : list entry :=
  (λ uw : Z * Z, (d + uw.2, uw.1, p ++ [uw.1]))
    <$> map_to_list (default ∅ (G !! v)).

(** Modelled from the spec: the search inside NetworkX's
    [nx.shortest_path], which is missing from the sources.  The
    specification (section 4.5) has it as the standard shortest-path search
    for edge weights that are not negative, finding a path of least total
    weight; with a [weight] argument NetworkX runs Dijkstra's algorithm.
    The model is that search from the source, on the adjacency dictionary,
    with a fringe of entries: the entry of least distance is popped (the
    earliest pushed among equals), dropped when its node is already
    settled, and otherwise settles its node and pushes one entry per
    neighbour.  An empty fringe before the target is reached is
    [NetworkXNoPath]. *)
Fixpoint dijkstra (fuel : nat) (G : Graph) (target : Z) (dist : gmap Z Z)
    (fringe : list entry) : result (Z * list Z) :=
  match fuel with
  | O => OutOfFuel
  | S fuel' =>
      match fringe with
      | [] => Raise NetworkXNoPath
      | e :: q =>
          let '(d, v, p, rest) := pop_min e q in
          match dist !! v with
          | Some _ => dijkstra fuel' G target dist rest
          | None =>
              if v =? target then Ok (d, p)
              else dijkstra fuel' G target (<[v := d]> dist)
                     (rest ++ push_neighbours G d v p)
          end
      end
  end.

(** Every pass pops one entry, and a node pushes its neighbours once, when
    it is settled: the passes are at most one more than the adjacency
    entries of the graph, plus the first. *)
Definition degree_sum (G : Graph) : nat :=
  sum_list_with (λ vn : Z * gmap Z Z, size vn.2) (map_to_list G).

Definition dijkstra_fuel (G : Graph) : nat := S (S (degree_sum G)).

(** The call [nx.shortest_path(G, source=.., target=.., weight='weight')].
    NetworkX first checks that both ends are nodes of the graph and raises
    [NodeNotFound] when one is not, also when the two ends are equal; it
    raises [NetworkXNoPath] when no path joins them. *)
Definition nx_shortest_path (G : Graph) (source target : Z)
  : result (list Z) :=
  if has_node G source && has_node G target then
    dp ← dijkstra (dijkstra_fuel G) G target ∅ [(0, source, [source])];
    Ok dp.2
  else Raise NodeNotFound.

(** Lines 112-127: the path, or [None] when [NetworkXNoPath] is caught;
    any other exception leaves the method. *)
Definition find_reliable_path (s : CityGrid) (start end_ : Z)
  : result (option (list Z)) :=
  let G := build_graph (towers s) in
  match nx_shortest_path G start end_ with
  | Ok path => Ok (Some path)
  | Raise NetworkXNoPath => Ok None
  | Raise e => Raise e
  | OutOfFuel => OutOfFuel
  end.

(** ** The notions the specification uses *)

(** [coverageCount(x, y)]: the number of towers whose range reaches the
    cell. *)
Definition reaches (x y : Z) (t : tower) : bool :=
  (x - t.1.1) ^ 2 + (y - t.1.2) ^ 2 <=? t.2 ^ 2.

Definition coverageCount (ts : list tower) (x y : Z) : Z :=
  Z.of_nat (length (filter (λ t, reaches x y t = true) ts)).

(** A cell a tower may be built on that no tower covers. *)
Definition uncovered (s : CityGrid) (c : Z * Z) : bool :=
  match grid_at s c.1 c.2 with
  | Ok true => coverageCount (towers s) c.1 c.2 =? 0
  | _ => false
  end.

Definition first_uncovered (s : CityGrid) : option (Z * Z) :=
  head (filter (λ c, uncovered s c = true) (cells s)).

(** The scan's best cell, when it has one, is a cell of the grid that is
    passable and uncovered. *)
Definition best_is_open (s : CityGrid) (loc : locals) : Prop :=
  ∀ c, best_tower loc = Some c → c ∈ cells s ∧ uncovered s c = true.

(** What a scan over the cells [cs] does, from the locals it starts with.
    It raises exactly when it reaches an open cell while the type's score
    beats the best score, the registry is empty and [distance] is unbound:
    line 92 then reads the unbound local.  Otherwise it ends with the first
    open cell as its best cell when the score beats the best score, and
    with the best cell it started with when not. *)
Definition scan_raises (s : CityGrid) (t : tower_type) (cs : list (Z * Z))
    (loc : locals) : Prop :=
  best_coverage loc < coverage t ∧
  head (filter (λ c, uncovered s c = true) cs) ≠ None ∧
  towers s = [] ∧ distance loc = None.

Definition scan_best (s : CityGrid) (t : tower_type) (cs : list (Z * Z))
    (loc : locals) : option (Z * Z) :=
  if best_coverage loc <? coverage t then
    match head (filter (λ c, uncovered s c = true) cs) with
    | Some c => Some c
    | None => best_tower loc
    end
  else best_tower loc.

(** The number of cells still open to the optimiser. *)
Definition open_cells (s : CityGrid) : nat :=
  length (filter (λ c, uncovered s c = true) (cells s)).

(** The optimiser as the specification words it, with the one guard the
    code adds: a type whose coverage score is not positive never beats the
    initial best score 0.  For each type in order, starting from the whole
    budget: while the remaining budget covers the cost, build a tower of
    the type's range on the first uncovered passable cell in row-major
    order and pay the cost; stop with this type when there is no such
    cell. *)
Fixpoint place_first_uncovered (fuel : nat) (t : tower_type) (s : CityGrid)
    (remaining : Z) : CityGrid * completion :=
  match fuel with
  | O => (s, FuelSpent)
  | S fuel' =>
      if cost t <=? remaining then
        match (if 0 <? coverage t then first_uncovered s else None) with
        | Some (x, y) =>
            place_first_uncovered fuel' t
              (set_towers s (towers s ++ [(x, y, range t)]))
              (remaining - cost t)
        | None => (s, Returned)
        end
      else (s, Returned)
  end.

Fixpoint optimize_reference (fuel : nat) (budget : Z)
    (tower_types : list tower_type) (s : CityGrid) : CityGrid * completion :=
  match tower_types with
  | [] => (s, Returned)
  | t :: rest =>
      match place_first_uncovered fuel t s budget with
      | (s', Returned) => optimize_reference fuel budget rest s'
      | stopped => stopped
      end
  end.

(** [grows s s']: [s'] is [s] after some towers were built, each on a cell
    of the grid that was passable and uncovered when it was built. *)
Inductive grows : CityGrid → CityGrid → Prop :=
| grows_refl (s : CityGrid) : grows s s
| grows_step (s s' : CityGrid) (x y r : Z) :
    (x, y) ∈ cells s → uncovered s (x, y) = true →
    grows (set_towers s (towers s ++ [(x, y, r)])) s' →
    grows s s'.

(** The cell a tower stands on. *)
Definition site (t : tower) : Z * Z := t.1.

(** The towers [added] stand on cells of their own: no two on one cell,
    and none on the cell of a tower of [old]. *)
Definition fresh_sites (old added : list tower) : Prop :=
  NoDup (site <$> added) ∧
  ∀ a t, a ∈ added → t ∈ old → site a ≠ site t.

(** *** Paths

    [walk G u p v d]: the node list [p] leads from [u] to [v] along edges
    of [G], and the weights of the edges it takes add up to [d]. *)
Inductive walk (G : Graph) (u : Z) : list Z → Z → Z → Prop :=
| walk_start : walk G u [u] u 0
| walk_edge (p : list Z) (v x d w : Z) :
    walk G u p v d → edge_weight G v x = Some w →
    walk G u (p ++ [x]) x (d + w).

(** The towers are in range of each other: the graph joins them. *)
Definition in_reach (t o : tower) : Prop :=
  sq_dist t o ≤ t.2 ^ 2 ∨ sq_dist t o ≤ o.2 ^ 2.

(** The adjacency entries of the nodes that are not settled yet. *)
Definition unsettled_degree (G : Graph) (dist : gmap Z Z) : nat :=
  sum_list_with
    (λ vn : Z * gmap Z Z, if dist !! vn.1 is Some _ then 0%nat else size vn.2)
    (map_to_list G).

(** What holds between two passes of the search from [source] to [target]:
    every fringe entry carries a path from the source to its node, of the
    entry's distance, whose earlier nodes are settled and distinct; a
    settled distance is the least weight of a path to the node; every edge
    out of a settled node leads to a settled node or has a fringe entry
    that is not longer; the source is settled or waits in the fringe; the
    target is not settled. *)
Definition dijkstra_inv (G : Graph) (source target : Z) (dist : gmap Z Z)
    (fringe : list entry) : Prop :=
  (∀ d v p, (d, v, p) ∈ fringe →
     walk G source p v d ∧
     ∃ p0, p = p0 ++ [v] ∧ NoDup p0 ∧ ∀ u, u ∈ p0 → is_Some (dist !! u)) ∧
  (∀ v d, dist !! v = Some d → ∀ p d', walk G source p v d' → d ≤ d') ∧
  (∀ u du v w, dist !! u = Some du → edge_weight G u v = Some w →
     is_Some (dist !! v) ∨ ∃ d' p, (d', v, p) ∈ fringe ∧ d' ≤ du + w) ∧
  (is_Some (dist !! source) ∨ (0, source, [source]) ∈ fringe) ∧
  dist !! target = None.

(** A grid of the given size with no obstruction, holding the given
    towers. *)
Definition all_passable (rows cols : Z) : list (list bool) :=
  (λ _, (λ _, true) <$> py_range cols) <$> py_range rows.

Definition open_city (rows cols : Z) (ts : list tower) : CityGrid :=
  {| n := rows; m := cols; grid := all_passable rows cols; towers := ts |}.

(** The ordered pair [(i, j)] of tower indices passes the test of line 120
    with the squared distance [d]. *)
Definition in_range_of (ts : list tower) (i j d : Z) : Prop :=
  ∃ t o, i ≠ j ∧ (i, t) ∈ enumerate ts ∧ (j, o) ∈ enumerate ts ∧
         d = sq_dist t o ∧ d ≤ t.2 ^ 2.

(** What the graph holds at any moment of its construction: only edges
    between distinct towers of which one reaches the other, weighted by
    their squared distance, and only endpoints of edges as nodes. *)
Definition graph_sound (ts : list tower) (G : Graph) : Prop :=
  (∀ u v w, edge_weight G u v = Some w →
            in_range_of ts u v w ∨ in_range_of ts v u w) ∧
  (∀ u, has_node G u = true → ∃ v w, edge_weight G u v = Some w).


(** ** The registry invariant *)

(** The tower stands inside the grid, on a passable cell. *)
Definition on_passable (s : CityGrid) (t : tower) : Prop :=
  0 ≤ t.1.1 < n s ∧ 0 ≤ t.1.2 < m s ∧ grid_at s t.1.1 t.1.2 = Ok true.

Definition well_placed (s : CityGrid) : Prop :=
  Forall (on_passable s) (towers s).

(** The objects a program can hold: made by the constructor, then changed
    by [place_tower] and [optimize_tower_placement] only. *)
Inductive reachable : CityGrid → Prop :=
| reach_init (rows cols : Z) (p : option Q) (u : Z → Z → Q) (s : CityGrid) :
    init rows cols p u = Ok s → reachable s
| reach_place (s s' : CityGrid) (x y r : Z) :
    reachable s → place_tower s x y r = Ok s' → reachable s'
| reach_optimize (s : CityGrid) (budget : Z) (tys : list tower_type) :
    reachable s → reachable (optimize_tower_placement s budget tys).1.

(** The towers [added] were each built out of the range of every tower
    standing before it: the towers of [old] and the ones added earlier. *)
Definition spread (old added : list tower) : Prop :=
  ∀ k a, added !! k = Some a →
    ∀ t, t ∈ old ++ take k added → reaches a.1.1 a.1.2 t = false.

(** A tower type that cannot build with this budget on any registry: it is
    too dear, or its coverage score does not beat the initial best score. *)
Definition inert (budget : Z) (t : tower_type) : Prop :=
  budget < cost t ∨ coverage t ≤ 0.

(** ** The drawing methods

    A drawing method hands commands to Matplotlib and changes nothing in
    the object; its model is the list of commands issued, in order, and the
    way the call ends.  [TypeError] is the one exception of these methods
    that the methods above do not raise. *)
Inductive py_exn : Set :=
| Known (e : exn)
| TypeError.

Inductive outcome (A : Type) : Type :=
| Done (a : A)
| Failed (e : py_exn).
Arguments Done {A} a.
Arguments Failed {A} e.

#[global] Instance outcome_bind : MBind outcome := λ A B k r,
  match r with
  | Done a => k a
  | Failed e => Failed e
  end.

Inductive colormap : Set := Gray | Blues.

Inductive plot : Type :=
| ImshowGrid (img : list (list bool)) (cmap : colormap)
| ImshowCoverage (img : list (list Z)) (cmap : colormap) (half_alpha : bool)
| Scatter (horizontal vertical : Z)
| Show
| PrintNoPath.

(** How a call, or the script, ends. *)
Inductive ending : Set :=
| Finished
| Crashed (e : py_exn)
| Unfinished.

(** A [for] loop over a list whose body may raise, for these methods. *)
Fixpoint each {A S : Type} (l : list A) (body : S → A → outcome S) (s : S)
  : outcome S :=
  match l with
  | [] => Done s
  | a :: l' => s' ← body s a ; each l' body s'
  end.

(** [np.zeros((n, m))], the array of lines 49 and 140. *)
Definition zeros (s : CityGrid) : outcome (list (list Z)) :=
  if (n s <? 0) || (m s <? 0) then Failed (Known ValueError)
  else Done (replicate (Z.to_nat (n s)) (replicate (Z.to_nat (m s)) 0)).

(** [for tower in self.towers: plt.scatter(y, x, ...)]: the column is the
    horizontal coordinate. *)
Definition markers (s : CityGrid) : list plot :=
  (λ t : tower, Scatter t.1.2 t.1.1) <$> towers s.

(** Lines 39-43. *)
Definition visualize_grid (s : CityGrid) : list plot * ending :=
  ([ImshowGrid (grid s) Gray] ++ markers s ++ [Show], Finished).

(** In [visualize_coverage] and [visualize_path] the statement
    [x, y, range = ...] makes [range] a local variable of the method, bound
    to the tower's range; the call [range(-range, range+1)] that follows
    calls that integer, and calling an integer raises [TypeError]. *)
Definition call_int (callee : Z) (args : list Z) : outcome (list Z) :=
  Failed TypeError.

(** [product(l, repeat=2)] *)
Definition product2 (l : list Z) : list (Z * Z) :=
  i ← l; (λ j, (i, j)) <$> l.

(** [coverage_grid[a][b] = 1] *)
Definition set_cell (cg : list (list Z)) (a b : Z) : list (list Z) :=
  match cg !! Z.to_nat a with
  | Some row => <[Z.to_nat a := <[Z.to_nat b := 1]> row]> cg
  | None => cg
  end.

(** Lines 53-54 and 144-145, for the offsets [(i, j)]. *)
Definition mark (s : CityGrid) (x y : Z) (cg : list (list Z)) (ij : Z * Z)
  : list (list Z) :=
  if (0 <=? x + ij.1) && (x + ij.1 <? n s) &&
     ((0 <=? y + ij.2) && (y + ij.2 <? m s))
  then set_cell cg (x + ij.1) (y + ij.2)
  else cg.

(** Lines 51-54: the body of the loop over the towers. *)
Definition cover_tower (s : CityGrid) (cg : list (list Z)) (t : tower)
  : outcome (list (list Z)) :=
  let '(x, y, range) := t in
  offsets ← call_int range [- range; range + 1];
  Done (foldl (mark s x y) cg (product2 offsets)).

(** Lines 49-60. *)
Definition visualize_coverage (s : CityGrid) : list plot * ending :=
  match cg ← zeros s; each (towers s) (cover_tower s) cg with
  | Done cg => ([ImshowCoverage cg Blues false] ++ markers s ++ [Show],
                Finished)
  | Failed e => ([], Crashed e)
  end.

(** [self.towers[i]] on the Python list: a negative index counts from the
    end, an index outside the list raises [IndexError]. *)
Definition tower_at (s : CityGrid) (i : Z) : outcome tower :=
  let k := if i <? 0 then i + Z.of_nat (length (towers s)) else i in
  if 0 <=? k then
    match towers s !! Z.to_nat k with
    | Some t => Done t
    | None => Failed (Known IndexError)
    end
  else Failed (Known IndexError).

(** Lines 141-145: the body of the loop over the path. *)
Definition cover_hop (s : CityGrid) (cg : list (list Z)) (i : Z)
  : outcome (list (list Z)) :=
  t ← tower_at s i; cover_tower s cg t.

(** Lines 136-152. *)
Definition visualize_path (s : CityGrid) (path : option (list Z))
  : list plot * ending :=
  match path with
  | None => ([PrintNoPath], Finished)
  | Some p =>
      match cg ← zeros s; each p (cover_hop s) cg with
      | Done cg =>
          ([ImshowGrid (grid s) Gray; ImshowCoverage cg Blues true]
             ++ markers s ++ [Show], Finished)
      | Failed e => ([], Crashed e)
      end
  end.

(** ** The script of lines 155-178 *)

(** The float [0.3]: the double nearest to three tenths. *)
Definition float_0_3 : Q := 5404319552844595 # 18014398509481984.

Definition demo_tower_types : list tower_type :=
  [{| range := 2; coverage := 10; cost := 200 |};
   {| range := 3; coverage := 15; cost := 300 |}].

(** Lines 172-179: the statements after the optimiser has returned, with
    the commands [shown] issued before. *)
Definition script_route (city : CityGrid) (shown : list plot)
  : list plot * ending :=
  match visualize_coverage city with
  | (drawn, Crashed e) => (shown ++ drawn, Crashed e)
  | (drawn, Unfinished) => (shown ++ drawn, Unfinished)
  | (drawn, Finished) =>
      match find_reliable_path city 0 1 with
      | Raise e => (shown ++ drawn, Crashed (Known e))
      | OutOfFuel => (shown ++ drawn, Unfinished)
      | Ok path =>
          let last := visualize_path city path in
          (shown ++ drawn ++ last.1, last.2)
      end
  end.

(** Lines 162-179: the statements after the two towers have been placed. *)
Definition script_optimize (city : CityGrid) : list plot * ending :=
  let shown := (visualize_grid city).1 in
  match optimize_tower_placement city 1000 demo_tower_types with
  | (_, Raised e) => (shown, Crashed (Known e))
  | (_, FuelSpent) => (shown, Unfinished)
  | (city', Returned) => script_route city' shown
  end.

(** The statements of the script in order, for the draws [u] of the random
    grid; the commands of the drawing calls that ran are kept up to the
    statement that raises. *)
Definition script (u : Z → Z → Q) : list plot * ending :=
  match init 10 10 (Some float_0_3) u with
  | Raise e => ([], Crashed (Known e))
  | OutOfFuel => ([], Unfinished)
  | Ok city =>
      match place_tower city 3 4 2 with
      | Raise e => ([], Crashed (Known e))
      | OutOfFuel => ([], Unfinished)
      | Ok city1 =>
          match place_tower city1 7 5 3 with
          | Raise e => ([], Crashed (Known e))
          | OutOfFuel => ([], Unfinished)
          | Ok city2 => script_optimize city2
          end
      end
  end.
(** * Properties *)

(** ** Results and loops *)

Lemma bind_Ok {A B} (r : result A) (k : A → result B) (b : B) :
  (r ≫= k) = Ok b ↔ ∃ a, r = Ok a ∧ k a = Ok b.
Proof.
  destruct r as [a|e|]; simpl; split.
  - intros H. by exists a.
  - by intros (a' & [= <-] & H).
  - done.
  - by intros (a' & [=] & _).
  - done.
  - by intros (a' & [=] & _).
Qed.

Lemma for_each_app {A S} (l k : list A) (body : S → A → result S) (s : S) :
  for_each (l ++ k) body s = (for_each l body s ≫= for_each k body).
Proof.
  revert s. induction l as [|a l IH]; intros s; simpl; [done|].
  destruct (body s a) as [s'| |]; simpl; [apply IH|done..].
Qed.

(** A property of the loop state that every pass keeps holds at the end. *)
Lemma for_each_invariant {A S} (P : S → Prop) (l : list A)
    (body : S → A → result S) (s s' : S) :
  (∀ st a st', a ∈ l → P st → body st a = Ok st' → P st') →
  P s → for_each l body s = Ok s' → P s'.
Proof.
  revert s. induction l as [|a l IH]; intros s Hstep Hs; simpl.
  - by intros [= <-].
  - intros (s1 & H1 & H2)%bind_Ok.
    apply (IH s1); [|by eapply Hstep; [left|..]|done].
    intros st b st' Hb. apply Hstep. by right.
Qed.

(** A loop whose body never exhausts a step counter does not either. *)
Lemma for_each_fuel {A S} (l : list A) (body : S → A → result S) (s : S) :
  (∀ st a, body st a ≠ OutOfFuel) → for_each l body s ≠ OutOfFuel.
Proof.
  intros Hbody. revert s. induction l as [|a l IH]; intros s; simpl; [done|].
  destruct (body s a) as [s'| |] eqn:Ha; simpl; [apply IH|done|].
  by destruct (Hbody s a).
Qed.

Lemma for_each_ext {A S} (l : list A) (body body' : S → A → result S)
    (s : S) :
  (∀ st a, body st a = body' st a) →
  for_each l body s = for_each l body' s.
Proof.
  intros Hext. revert s. induction l as [|a l IH]; intros s; simpl; [done|].
  rewrite Hext. destruct (body' s a); simpl; auto.
Qed.

Lemma for_each_fmap {A B S} (g : A → B) (l : list A)
    (body : S → B → result S) (s : S) :
  for_each (g <$> l) body s = for_each l (λ st a, body st (g a)) s.
Proof.
  revert s. induction l as [|a l IH]; intros s; simpl; [done|].
  destruct (body s (g a)); simpl; auto.
Qed.

Lemma for_each_bind {A B S} (l : list A) (f : A → list B)
    (body : S → B → result S) (s : S) :
  for_each (l ≫= f) body s = for_each l (λ st a, for_each (f a) body st) s.
Proof.
  revert s. induction l as [|a l IH]; intros s; [done|].
  change ((a :: l) ≫= f) with (f a ++ (l ≫= f)).
  rewrite for_each_app. simpl.
  destruct (for_each (f a) body s); simpl; auto.
Qed.

(** ** The grid *)

Lemma py_index_lookup {A} (l : list A) (i : Z) (a : A) :
  0 ≤ i → l !! Z.to_nat i = Some a → py_index l i = Ok a.
Proof.
  intros Hi Hl. unfold py_index.
  destruct (Z.ltb_spec i 0); [lia|].
  destruct (Z.leb_spec 0 i); [|lia]. by rewrite Hl.
Qed.

Lemma py_index_fuel {A} (l : list A) (i : Z) : py_index l i ≠ OutOfFuel.
Proof. unfold py_index. by repeat case_match. Qed.

Lemma grid_at_fuel (s : CityGrid) (x y : Z) : grid_at s x y ≠ OutOfFuel.
Proof.
  unfold grid_at. destruct (py_index (grid s) x) as [row| |] eqn:Hrow;
    simpl; [apply py_index_fuel|done|].
  by apply py_index_fuel in Hrow.
Qed.

Lemma shaped_grid_at (s : CityGrid) (x y : Z) :
  shaped s → 0 ≤ x < n s → 0 ≤ y < m s → ∃ b, grid_at s x y = Ok b.
Proof.
  intros (_ & _ & Hrows & Hcols) Hx Hy. unfold grid_at.
  destruct (lookup_lt_is_Some_2 (grid s) (Z.to_nat x)) as [row Hrow]; [lia|].
  rewrite (py_index_lookup _ _ row); [|lia|done]. simpl.
  rewrite Forall_forall in Hcols.
  assert (Hlen : length row = Z.to_nat (m s)).
  { apply Hcols. by eapply list_elem_of_lookup_2. }
  destruct (lookup_lt_is_Some_2 row (Z.to_nat y)) as [b Hb]; [lia|].
  exists b. apply py_index_lookup; [lia|done].
Qed.

Lemma shaped_set_towers (s : CityGrid) (ts : list tower) :
  shaped s → shaped (set_towers s ts).
Proof. done. Qed.

Lemma grid_at_set_towers (s : CityGrid) (ts : list tower) (x y : Z) :
  grid_at (set_towers s ts) x y = grid_at s x y.
Proof. done. Qed.

(** ** [place_tower] *)

Lemma place_tower_inside (s : CityGrid) (x y r : Z) :
  0 ≤ x < n s → 0 ≤ y < m s → grid_at s x y = Ok true →
  place_tower s x y r = Ok (set_towers s (towers s ++ [(x, y, r)])).
Proof.
  intros Hx Hy Hg. unfold place_tower.
  destruct (Z.leb_spec 0 x), (Z.ltb_spec x (n s)),
    (Z.leb_spec 0 y), (Z.ltb_spec y (m s)); try lia.
  simpl. by rewrite Hg.
Qed.

Lemma place_tower_rejected (s : CityGrid) (x y r : Z) :
  shaped s →
  ¬ (0 ≤ x < n s ∧ 0 ≤ y < m s ∧ grid_at s x y = Ok true) →
  place_tower s x y r = Ok s.
Proof.
  intros Hs Hno. unfold place_tower.
  destruct (Z.leb_spec 0 x), (Z.ltb_spec x (n s)),
    (Z.leb_spec 0 y), (Z.ltb_spec y (m s)); simpl; try done.
  destruct (shaped_grid_at s x y) as [b Hb]; [done|lia|lia|].
  rewrite Hb. simpl. destruct b; [|done].
  exfalso. apply Hno. repeat split; (lia || done).
Qed.

(** C4.  On a grid of [n] rows of [m] cells, [place_tower s x y r] never
    raises; it appends the one tower [(x, y, r)], which gets the next
    index [len(towers)], exactly when [0 ≤ x < n], [0 ≤ y < m] and
    [grid[x][y]] is true, and otherwise it leaves the object as it was. *)
Theorem place_tower_spec (s : CityGrid) (x y r : Z) :
  shaped s →
  ∃ s', place_tower s x y r = Ok s' ∧
    n s' = n s ∧ m s' = m s ∧ grid s' = grid s ∧
    ((0 ≤ x < n s ∧ 0 ≤ y < m s ∧ grid_at s x y = Ok true) ↔
       towers s' = towers s ++ [(x, y, r)]) ∧
    ((0 ≤ x < n s ∧ 0 ≤ y < m s ∧ grid_at s x y = Ok true) →
       length (towers s') = S (length (towers s)) ∧
       towers s' !! length (towers s) = Some (x, y, r)) ∧
    (¬ (0 ≤ x < n s ∧ 0 ≤ y < m s ∧ grid_at s x y = Ok true) → s' = s).
Proof.
  intros Hs.
  destruct (decide (0 ≤ x < n s ∧ 0 ≤ y < m s ∧ grid_at s x y = Ok true))
    as [Hin|Hout].
  - exists (set_towers s (towers s ++ [(x, y, r)])).
    destruct Hin as (Hx & Hy & Hg).
    rewrite place_tower_inside by done. simpl.
    split_and!; try done.
    + intros _. rewrite length_app. simpl.
      split; [lia|]. by rewrite lookup_app_r, Nat.sub_diag.
    + intros Hno. by destruct Hno.
  - exists s. rewrite place_tower_rejected by done.
    split_and!; try done.
    split; [done|]. intros Heq.
    apply (f_equal length) in Heq. rewrite length_app in Heq.
    simpl in Heq. lia.
Qed.

Lemma place_tower_spec_witness :
  ∃ s', place_tower (open_city 2 2 []) 1 0 5 = Ok s' ∧
        towers s' = [(1, 0, 5)].
Proof.
  destruct (place_tower_spec (open_city 2 2 []) 1 0 5)
    as (s' & Hp & _ & _ & _ & Hiff & _).
  - repeat split; simpl; try lia. repeat constructor.
  - exists s'. split; [done|].
    apply Hiff. repeat split; simpl; (lia || reflexivity).
Defined.

(** ** [__init__] *)

Lemma lookup_fmap_py_range {A} (f : Z → A) (k i : Z) :
  0 ≤ i < k → (f <$> py_range k) !! Z.to_nat i = Some (f i).
Proof.
  intros Hi. unfold py_range.
  rewrite list_lookup_fmap, lookup_seqZ_lt by lia.
  simpl. f_equal. f_equal. lia.
Qed.

(** C5, as the code has it.  The constructor takes the two dimensions and
    an obstruction probability (0.3 when omitted), never a matrix: it draws
    the grid itself.  For dimensions that are not negative it returns an
    object whose grid has that shape, whose registry is empty, and whose
    cell [(x, y)] is passable exactly when the draw for the cell is greater
    than the probability. *)
Theorem init_generates (rows cols : Z) (p : option Q) (u : Z → Z → Q) :
  0 ≤ rows → 0 ≤ cols →
  ∃ s, init rows cols p u = Ok s ∧
    n s = rows ∧ m s = cols ∧ shaped s ∧ towers s = [] ∧
    ∀ x y, 0 ≤ x < rows → 0 ≤ y < cols →
      ∃ b, grid_at s x y = Ok b ∧
        (b = true ↔
         (default default_obstructed_probability p < u x y)%Q).
Proof.
  intros Hr Hc. unfold init.
  destruct (Z.ltb_spec rows 0), (Z.ltb_spec cols 0); try lia. simpl.
  eexists. split; [done|]. simpl. split_and!; try done.
  - unfold shaped. simpl. split_and!; try done.
    + unfold py_range. by rewrite length_fmap, length_seqZ.
    + apply Forall_fmap, Forall_forall. intros x _. simpl.
      unfold py_range. by rewrite length_fmap, length_seqZ.
  - intros x y Hx Hy. eexists. split.
    + unfold grid_at. simpl.
      erewrite py_index_lookup;
        [|lia|by apply (lookup_fmap_py_range _ rows x)].
      simpl. apply py_index_lookup; [lia|].
      by apply (lookup_fmap_py_range _ cols y).
    + rewrite negb_true_iff, <- not_true_iff_false, Qle_bool_iff.
      split; [apply Qnot_le_lt|apply Qlt_not_le].
Qed.

Lemma init_generates_witness :
  ∃ s, init 2 3 None (λ x y, (x + y) # 4) = Ok s ∧ towers s = [].
Proof.
  destruct (init_generates 2 3 None (λ x y, (x + y) # 4))
    as (s & Hs & _ & _ & _ & Ht & _); [lia|lia|].
  by exists s.
Defined.

(** C5, as the specification has it, fails: the grid is not what the
    caller passed in.  The same arguments, one row, one column and
    probability 0.3, give a passable cell with the draw 0.5 and an
    obstructed cell with the draw 0.1. *)
Lemma init_grid_not_from_caller :
  ¬ (∀ rows cols p u1 u2 s1 s2,
       init rows cols p u1 = Ok s1 → init rows cols p u2 = Ok s2 →
       grid s1 = grid s2).
Proof.
  intros H.
  specialize (H 1 1 (Some (3 # 10)) (λ _ _, 1 # 2) (λ _ _, 1 # 10)
                _ _ eq_refl eq_refl).
  discriminate H.
Qed.

(** ** The connectivity graph *)

Lemma edge_weight_add_edge (G : Graph) (a b w u v : Z) :
  edge_weight (add_edge G a b w) u v =
    if decide ((u = a ∧ v = b) ∨ (u = b ∧ v = a)) then Some w
    else edge_weight G u v.
Proof.
  unfold edge_weight, add_edge.
  destruct (decide (u = b)) as [->|Hub].
  - rewrite lookup_insert_eq. simpl.
    destruct (decide (v = a)) as [->|Hva].
    + rewrite lookup_insert_eq. by rewrite decide_True by auto.
    + rewrite lookup_insert_ne by done.
      destruct (decide (b = a)) as [->|Hba].
      * rewrite lookup_insert_eq. simpl.
        rewrite lookup_insert_ne by done.
        rewrite decide_False by intuition congruence.
        by destruct (G !! a).
      * rewrite lookup_insert_ne by done.
        rewrite decide_False by intuition congruence.
        by destruct (G !! b).
  - rewrite lookup_insert_ne by done.
    destruct (decide (u = a)) as [->|Hua].
    + rewrite lookup_insert_eq. simpl.
      destruct (decide (v = b)) as [->|Hvb].
      * rewrite lookup_insert_eq. by rewrite decide_True by auto.
      * rewrite lookup_insert_ne by done.
        rewrite decide_False by intuition congruence.
        by destruct (G !! a).
    + rewrite lookup_insert_ne by done.
      by rewrite decide_False by intuition congruence.
Qed.

Lemma has_node_add_edge (G : Graph) (a b w u : Z) :
  has_node (add_edge G a b w) u = true ↔
  u = a ∨ u = b ∨ has_node G u = true.
Proof.
  unfold has_node, add_edge. rewrite !bool_decide_eq_true.
  destruct (decide (u = b)) as [->|Hub].
  - rewrite lookup_insert_eq. split; [auto|by eauto].
  - rewrite lookup_insert_ne by done.
    destruct (decide (u = a)) as [->|Hua].
    + rewrite lookup_insert_eq. split; [auto|by eauto].
    + rewrite lookup_insert_ne by done. intuition congruence.
Qed.

Lemma sq_dist_sym (t o : tower) : sq_dist t o = sq_dist o t.
Proof. unfold sq_dist. ring. Qed.

Lemma sq_dist_nonneg (t o : tower) : 0 ≤ sq_dist t o.
Proof. unfold sq_dist. nia. Qed.

Lemma elem_of_enumerate {A} (l : list A) (i : Z) (a : A) :
  (i, a) ∈ enumerate l ↔ 0 ≤ i ∧ l !! Z.to_nat i = Some a.
Proof.
  unfold enumerate. rewrite list_elem_of_lookup. split.
  - intros (k & Hk). apply lookup_zip_Some in Hk as [Hi Ha].
    apply lookup_seqZ in Hi as [-> _].
    split; [lia|]. by rewrite Z.add_0_l, Nat2Z.id.
  - intros [Hi Ha]. exists (Z.to_nat i).
    apply lookup_zip_Some. split; [|done].
    apply lookup_seqZ. split; [lia|].
    apply lookup_lt_Some in Ha. lia.
Qed.

(** Two general facts on [foldl]: a property every step keeps survives the
    loop, and a property that one element of the list establishes and
    every step keeps holds at the end. *)
Lemma foldl_keeps {A B} (f : B → A → B) (P : B → Prop) (l : list A) (b : B) :
  (∀ b a, a ∈ l → P b → P (f b a)) → P b → P (foldl f b l).
Proof.
  revert b. induction l as [|a l IH]; intros b Hstep Hb; simpl; [done|].
  apply IH.
  - intros b' a' Ha'. apply Hstep. by right.
  - apply Hstep; [by left|done].
Qed.

Lemma foldl_reaches {A B} (f : B → A → B) (P : B → Prop) (l : list A)
    (b : B) (x : A) :
  x ∈ l → (∀ b, P (f b x)) → (∀ b a, a ∈ l → P b → P (f b a)) →
  P (foldl f b l).
Proof.
  revert b. induction l as [|a l IH]; intros b Hx Hset Hstep; simpl.
  - by apply elem_of_nil in Hx.
  - apply elem_of_cons in Hx as [<-|Hx].
    + apply foldl_keeps; [|apply Hset].
      intros b' a' Ha'. apply Hstep. by right.
    + apply IH; [done..|].
      intros b' a' Ha'. apply Hstep. by right.
Qed.

Section build_graph.
Variable ts : list tower.

Lemma link_sound (i j : Z) (t o : tower) (G : Graph) :
  (i, t) ∈ enumerate ts → (j, o) ∈ enumerate ts →
  graph_sound ts G → graph_sound ts (link i t G (j, o)).
Proof.
  intros Hi Hj [Hedge Hnode]. unfold link.
  destruct (Z.eqb_spec i j) as [|Hij]; [done|].
  destruct (Z.leb_spec (sq_dist t o) (t.2 ^ 2)) as [Hle|]; [|done].
  split.
  - intros u v w. rewrite edge_weight_add_edge.
    case_decide as Huv; [|apply Hedge].
    intros [= <-].
    destruct Huv as [[-> ->]|[-> ->]]; [left|right];
      by exists t, o.
  - intros u [->|[->|Hu]]%has_node_add_edge.
    + exists j, (sq_dist t o). rewrite edge_weight_add_edge.
      by rewrite decide_True by auto.
    + exists i, (sq_dist t o). rewrite edge_weight_add_edge.
      by rewrite decide_True by auto.
    + destruct (Hnode u Hu) as (v & w & Hw).
      destruct (decide ((u = i ∧ v = j) ∨ (u = j ∧ v = i))) as [Hc|Hc].
      * exists v, (sq_dist t o). rewrite edge_weight_add_edge.
        by rewrite decide_True.
      * exists v, w. rewrite edge_weight_add_edge.
        by rewrite decide_False.
Qed.

Lemma build_graph_sound : graph_sound ts (build_graph ts).
Proof.
  unfold build_graph.
  apply (foldl_keeps _ (graph_sound ts)).
  - intros G [i t] Hi HG. simpl.
    apply (foldl_keeps _ (graph_sound ts)); [|done].
    intros G' [j o] Hj HG'. by apply link_sound.
  - split.
    + intros u v w. unfold edge_weight. by rewrite lookup_empty.
    + intros u. unfold has_node. rewrite bool_decide_eq_true.
      rewrite lookup_empty. by intros [? ?].
Qed.

(** An edge between two towers, once stored with their squared distance,
    stays: a later [add_edge] on the same pair writes the same weight. *)
Lemma link_keeps_edge (i j a b : Z) (ti tj t o : tower) (G : Graph) :
  (i, ti) ∈ enumerate ts → (j, tj) ∈ enumerate ts →
  (a, t) ∈ enumerate ts → (b, o) ∈ enumerate ts →
  edge_weight G i j = Some (sq_dist ti tj) →
  edge_weight (link a t G (b, o)) i j = Some (sq_dist ti tj).
Proof.
  intros Hi Hj Ha Hb HG. unfold link.
  destruct (Z.eqb_spec a b); [done|].
  destruct (Z.leb_spec (sq_dist t o) (t.2 ^ 2)); [|done].
  rewrite edge_weight_add_edge. case_decide as Hcase; [|done].
  apply elem_of_enumerate in Hi as [_ Hi], Hj as [_ Hj],
    Ha as [_ Ha], Hb as [_ Hb].
  destruct Hcase as [[-> ->]|[-> ->]]; simplify_eq; [done|].
  by rewrite sq_dist_sym.
Qed.

Lemma build_graph_complete (i j : Z) (ti tj : tower) :
  i ≠ j → (i, ti) ∈ enumerate ts → (j, tj) ∈ enumerate ts →
  sq_dist ti tj ≤ ti.2 ^ 2 →
  edge_weight (build_graph ts) i j = Some (sq_dist ti tj) ∧
  edge_weight (build_graph ts) j i = Some (sq_dist ti tj).
Proof.
  intros Hij Hi Hj Hle.
  assert (Hlink : ∀ G,
    edge_weight (link i ti G (j, tj)) i j = Some (sq_dist ti tj) ∧
    edge_weight (link i ti G (j, tj)) j i = Some (sq_dist ti tj)).
  { intros G. unfold link.
    destruct (Z.eqb_spec i j); [done|].
    destruct (Z.leb_spec (sq_dist ti tj) (ti.2 ^ 2)); [|lia].
    rewrite !edge_weight_add_edge.
    by rewrite !decide_True by auto. }
  unfold build_graph.
  apply (foldl_reaches _ (λ G,
    edge_weight G i j = Some (sq_dist ti tj) ∧
    edge_weight G j i = Some (sq_dist ti tj)) _ _ (i, ti)); [done|..].
  - intros G. simpl.
    apply (foldl_reaches _ (λ G,
      edge_weight G i j = Some (sq_dist ti tj) ∧
      edge_weight G j i = Some (sq_dist ti tj)) _ _ (j, tj));
      [done|done|].
    intros G' [b o] Hb [H1 H2]. split.
    + by apply link_keeps_edge.
    + rewrite (sq_dist_sym ti tj) in H2 |- *.
      by apply link_keeps_edge.
  - intros G [a t] Ha HG. simpl.
    apply (foldl_keeps _ (λ G,
      edge_weight G i j = Some (sq_dist ti tj) ∧
      edge_weight G j i = Some (sq_dist ti tj))); [|done].
    intros G' [b o] Hb [H1 H2]. split.
    + by apply link_keeps_edge.
    + rewrite (sq_dist_sym ti tj) in H2 |- *.
      by apply link_keeps_edge.
Qed.

Lemma in_range_of_inv (i j d : Z) (ti tj : tower) :
  (i, ti) ∈ enumerate ts → (j, tj) ∈ enumerate ts →
  in_range_of ts i j d → d = sq_dist ti tj ∧ d ≤ ti.2 ^ 2.
Proof.
  intros [_ Hi]%elem_of_enumerate [_ Hj]%elem_of_enumerate.
  intros (t & o & _ & [_ Ht]%elem_of_enumerate &
          [_ Ho]%elem_of_enumerate & -> & Hle).
  by simplify_eq.
Qed.

Lemma build_graph_no_self_loop (u : Z) :
  edge_weight (build_graph ts) u u = None.
Proof.
  destruct (edge_weight (build_graph ts) u u) as [w|] eqn:Hw; [|done].
  destruct build_graph_sound as [Hedge _].
  by destruct (Hedge u u w Hw) as [(? & ? & ? & _)|(? & ? & ? & _)].
Qed.

Lemma build_graph_edge (i j : Z) (ti tj : tower) (w : Z) :
  i ≠ j → (i, ti) ∈ enumerate ts → (j, tj) ∈ enumerate ts →
  edge_weight (build_graph ts) i j = Some w ↔
  w = sq_dist ti tj ∧ (w ≤ ti.2 ^ 2 ∨ w ≤ tj.2 ^ 2).
Proof.
  intros Hij Hi Hj. split.
  - intros Hw. destruct build_graph_sound as [Hedge _].
    destruct (Hedge i j w Hw) as [H|H].
    + apply (in_range_of_inv i j w ti tj) in H as [-> ?]; auto.
    + apply (in_range_of_inv j i w tj ti) in H as [-> ?]; [|done..].
      rewrite (sq_dist_sym tj ti) in *. auto.
  - intros [-> [Hle|Hle]].
    + by destruct (build_graph_complete i j ti tj) as [H _].
    + rewrite (sq_dist_sym ti tj) in Hle |- *.
      by destruct (build_graph_complete j i tj ti) as [_ H].
Qed.
End build_graph.

Lemma lookup_enumerate {A} (l : list A) (i : nat) (a : A) :
  l !! i = Some a → (Z.of_nat i, a) ∈ enumerate l.
Proof.
  intros Hi. apply elem_of_enumerate. split; [lia|]. by rewrite Nat2Z.id.
Qed.

(** C3.  In the graph built from the registry, two distinct towers [i] and
    [j] at squared distance [d] are joined by an edge of weight [d] exactly
    when [d ≤ range_i²] or [d ≤ range_j²]; the edge is stored under both
    endpoints with the same weight, it carries no other weight, and no
    node is joined to itself. *)
Theorem build_graph_edges (ts : list tower) (i j : nat) (ti tj : tower) :
  i ≠ j → ts !! i = Some ti → ts !! j = Some tj →
  let G := build_graph ts in
  let d := sq_dist ti tj in
  (edge_weight G (Z.of_nat i) (Z.of_nat j) = Some d ↔
     d ≤ ti.2 ^ 2 ∨ d ≤ tj.2 ^ 2) ∧
  edge_weight G (Z.of_nat j) (Z.of_nat i)
    = edge_weight G (Z.of_nat i) (Z.of_nat j) ∧
  (∀ w, edge_weight G (Z.of_nat i) (Z.of_nat j) = Some w → w = d) ∧
  (∀ u, edge_weight G u u = None).
Proof.
  intros Hij Hi%lookup_enumerate Hj%lookup_enumerate G d.
  assert (Hne : Z.of_nat i ≠ Z.of_nat j) by lia.
  assert (Hne' : Z.of_nat j ≠ Z.of_nat i) by lia.
  pose proof (λ w, build_graph_edge ts _ _ ti tj w Hne Hi Hj) as Hedge.
  pose proof (λ w, build_graph_edge ts _ _ tj ti w Hne' Hj Hi) as Hedge'.
  fold G in Hedge, Hedge'.
  split_and!.
  - rewrite Hedge. fold d. intuition.
  - apply option_eq. intros w.
    rewrite Hedge, Hedge', (sq_dist_sym tj ti). tauto.
  - intros w Hw. by apply Hedge in Hw as [-> _].
  - apply build_graph_no_self_loop.
Qed.

Lemma build_graph_edges_witness :
  edge_weight (build_graph [(3, 4, 2); (5, 5, 3)]) 0 1 = Some 5.
Proof.
  destruct (build_graph_edges [(3, 4, 2); (5, 5, 3)] 0 1 (3, 4, 2) (5, 5, 3))
    as (Hedge & _); [lia|reflexivity|reflexivity|].
  apply Hedge. right. vm_compute. discriminate.
Defined.

(** ** [find_reliable_path]: what the search raises *)

(** C1 at the specification's own example: on the 10×10 grid without
    obstruction, with the towers [(3, 4, 2)] and [(7, 5, 3)], neither tower
    reaches the other, no edge is added, so the graph has no node at all
    and [nx.shortest_path] raises [NodeNotFound], which the handler for
    [NetworkXNoPath] does not catch: the call raises where the
    specification and the docstring promise [None]. *)
Theorem find_reliable_path_no_edge_raises :
  build_graph [(3, 4, 2); (7, 5, 3)] = ∅ ∧
  find_reliable_path (open_city 10 10 [(3, 4, 2); (7, 5, 3)]) 0 1
    = Raise NodeNotFound.
Proof. split; vm_compute; reflexivity. Qed.

(** C8 at a registry of one tower: the tower has no edge, so it is not a
    node of the graph, and asking for the path from it to itself raises
    [NodeNotFound] instead of returning the path [[0]]. *)
Theorem find_reliable_path_lone_tower_raises :
  find_reliable_path (open_city 1 1 [(0, 0, 1)]) 0 0 = Raise NodeNotFound.
Proof. vm_compute. reflexivity. Qed.

(** A tower that has an edge is a node, and the path from it to itself is
    the tower alone. *)
Lemma find_reliable_path_same_node (s : CityGrid) (i : Z) :
  has_node (build_graph (towers s)) i = true →
  find_reliable_path s i i = Ok (Some [i]).
Proof.
  intros Hi. unfold find_reliable_path, nx_shortest_path.
  rewrite Hi. simpl. by rewrite lookup_empty, Z.eqb_refl.
Qed.

(** A tower that reaches no other tower and that no other tower reaches is
    not a node of the graph: every path query from it raises. *)
Lemma find_reliable_path_isolated (s : CityGrid) (start end_ : Z) :
  (∀ v w, edge_weight (build_graph (towers s)) start v ≠ Some w) →
  find_reliable_path s start end_ = Raise NodeNotFound.
Proof.
  intros Hiso. unfold find_reliable_path, nx_shortest_path.
  destruct (has_node (build_graph (towers s)) start) eqn:Hn; [|done].
  destruct (build_graph_sound (towers s)) as [_ Hnode].
  destruct (Hnode start Hn) as (v & w & Hw). by destruct (Hiso v w).
Qed.

(** ** The optimiser's scan *)

Lemma cover_loop_from (x y : Z) (ts : list tower) (k : Z) (dist : option Z) :
  (foldl (cover_step x y) (k, dist) ts).1 = k + coverageCount ts x y.
Proof.
  revert k dist. unfold coverageCount.
  induction ts as [|[[tx ty] tr] ts IH]; intros k dist; simpl; [lia|].
  rewrite IH, filter_cons.
  change ((x - tx) ^ 2 + (y - ty) ^ 2 <=? tr ^ 2)
    with (reaches x y (tx, ty, tr)).
  destruct (reaches x y (tx, ty, tr)).
  - rewrite decide_True by done. simpl length. lia.
  - rewrite decide_False by done. lia.
Qed.

Lemma cover_loop_count (x y : Z) (ts : list tower) (dist : option Z) :
  (cover_loop x y ts dist).1 = coverageCount ts x y.
Proof. unfold cover_loop. by rewrite cover_loop_from. Qed.

Lemma cover_loop_binds (x y : Z) (ts : list tower) (dist : option Z) :
  ts ≠ [] → is_Some (cover_loop x y ts dist).2.
Proof.
  intros Hts. unfold cover_loop.
  destruct ts as [|t ts _] using rev_ind; [done|].
  rewrite foldl_snoc. destruct t as [[tx ty] tr]. simpl. eauto.
Qed.

Lemma coverageCount_zero (ts : list tower) (x y : Z) :
  coverageCount ts x y = 0 ↔ ∀ t, t ∈ ts → reaches x y t = false.
Proof.
  unfold coverageCount. split.
  - intros Hlen t Ht. apply not_true_iff_false. intros Hr.
    assert (Hnil : filter (λ t, reaches x y t = true) ts = []).
    { apply length_zero_iff_nil. lia. }
    by apply (filter_nil_not_elem_of _ _ t Hnil Hr).
  - intros Hall. induction ts as [|t ts IH]; [done|].
    rewrite filter_cons, decide_False.
    + apply IH. intros t' Ht'. apply Hall. by right.
    + rewrite (Hall t) by left. done.
Qed.

Lemma coverageCount_snoc (ts : list tower) (t : tower) (x y : Z) :
  coverageCount (ts ++ [t]) x y =
  coverageCount ts x y + (if reaches x y t then 1 else 0).
Proof.
  unfold coverageCount. rewrite filter_app, length_app, filter_cons.
  destruct (reaches x y t); case_decide; simpl; try done; lia.
Qed.

Lemma coverageCount_nonneg (ts : list tower) (x y : Z) :
  0 ≤ coverageCount ts x y.
Proof. unfold coverageCount. lia. Qed.

(** A tower covers its own cell, whatever its range. *)
Lemma reaches_own (x y r : Z) : reaches x y (x, y, r) = true.
Proof. unfold reaches. simpl. apply Z.leb_le. nia. Qed.

Lemma uncovered_spec (s : CityGrid) (x y : Z) :
  uncovered s (x, y) = true ↔
  grid_at s x y = Ok true ∧ coverageCount (towers s) x y = 0.
Proof.
  unfold uncovered. simpl.
  destruct (grid_at s x y) as [[]| |]; rewrite ?Z.eqb_eq;
    (split; [intros H|intros [H1 H2]]); (done || by split).
Qed.

Lemma elem_of_cells (s : CityGrid) (x y : Z) :
  (x, y) ∈ cells s ↔ 0 ≤ x < n s ∧ 0 ≤ y < m s.
Proof.
  unfold cells, py_range. rewrite list_elem_of_bind. split.
  - intros (x' & Hy & Hx). apply list_elem_of_fmap in Hy as (y' & [= -> ->] & Hy).
    apply elem_of_seqZ in Hx, Hy. lia.
  - intros [Hx Hy]. exists x. split.
    + apply list_elem_of_fmap. exists y. split; [done|].
      apply elem_of_seqZ. lia.
    + apply elem_of_seqZ. lia.
Qed.

Lemma scan_cell_fuel (s : CityGrid) (t : tower_type) (x y : Z)
    (loc : locals) :
  scan_cell s t x loc y ≠ OutOfFuel.
Proof.
  unfold scan_cell.
  destruct (grid_at s x y) as [[]| |] eqn:Hg; simpl; try done.
  - destruct (cover_loop x y (towers s) (distance loc)) as [tc d].
    by repeat case_match.
  - by apply grid_at_fuel in Hg.
Qed.

Lemma scan_fuel (s : CityGrid) (t : tower_type) (loc : locals) :
  scan s t loc ≠ OutOfFuel.
Proof.
  unfold scan. apply for_each_fuel. intros st x.
  apply for_each_fuel. intros st' y. apply scan_cell_fuel.
Qed.

(** The two nested loops visit the cells in row-major order. *)
Lemma scan_cells (s : CityGrid) (t : tower_type) (loc : locals) :
  scan s t loc =
  for_each (cells s) (λ st c, scan_cell s t c.1 st c.2) loc.
Proof.
  unfold scan, cells. rewrite for_each_bind.
  apply for_each_ext. intros st x. by rewrite for_each_fmap.
Qed.

Lemma scan_cell_sound (s : CityGrid) (t : tower_type) (x y : Z)
    (loc loc' : locals) :
  x ∈ py_range (n s) → y ∈ py_range (m s) →
  best_is_open s loc → scan_cell s t x loc y = Ok loc' →
  best_is_open s loc'.
Proof.
  intros Hx Hy Hloc. unfold scan_cell.
  destruct (grid_at s x y) as [[]| |] eqn:Hg; simpl; try done.
  - pose proof (cover_loop_count x y (towers s) (distance loc)) as Hcount.
    destruct (cover_loop x y (towers s) (distance loc)) as [total dist].
    simpl in Hcount.
    destruct ((total =? 0) && (best_coverage loc <? coverage t)) eqn:Hq.
    + destruct dist as [d|]; [|done]. intros [= <-] c. simpl. intros [= <-].
      apply andb_true_iff in Hq as [Htot%Z.eqb_eq _].
      split.
      * apply elem_of_cells. unfold py_range in *.
        apply elem_of_seqZ in Hx, Hy. lia.
      * apply uncovered_spec. split; [done|lia].
    + by intros [= <-].
  - by intros [= <-].
Qed.

Lemma scan_sound (s : CityGrid) (t : tower_type) (loc loc' : locals) :
  best_is_open s loc → scan s t loc = Ok loc' → best_is_open s loc'.
Proof.
  intros Hloc. unfold scan.
  apply (for_each_invariant (best_is_open s)); [|done].
  intros st x st' Hx Hst.
  apply (for_each_invariant (best_is_open s)); [|done].
  intros st1 y st1' Hy. by apply scan_cell_sound.
Qed.

Lemma place_tower_open (s : CityGrid) (x y r : Z) :
  (x, y) ∈ cells s → uncovered s (x, y) = true →
  place_tower s x y r = Ok (set_towers s (towers s ++ [(x, y, r)])).
Proof.
  intros [Hx Hy]%elem_of_cells [Hg _]%uncovered_spec.
  by apply place_tower_inside.
Qed.

(** ** The [while] loop of one tower type *)

Lemma grows_trans (s1 s2 s3 : CityGrid) :
  grows s1 s2 → grows s2 s3 → grows s1 s3.
Proof.
  induction 1 as [|s s' x y r Hc Hu _ IH]; [done|].
  intros H3. eapply grows_step; eauto.
Qed.

Lemma while_budget_grows (fuel : nat) (t : tower_type) (s : CityGrid)
    (dist : option Z) (remaining : Z) :
  grows s (while_budget fuel t s dist remaining).1.1.
Proof.
  revert s dist remaining.
  induction fuel as [|fuel IH]; intros s dist remaining; simpl;
    [apply grows_refl|].
  destruct (cost t <=? remaining); [|apply grows_refl].
  destruct (scan s t _) as [loc| |] eqn:Hscan; try apply grows_refl.
  apply scan_sound in Hscan; [|by intros c [=]].
  destruct (best_tower loc) as [[x y]|] eqn:Hbest; [|apply grows_refl].
  destruct (Hscan _ Hbest) as [Hc Hu].
  rewrite (place_tower_open s x y (range t) Hc Hu).
  eapply grows_step; [done..|]. apply IH.
Qed.

Lemma grows_grid (s s' : CityGrid) :
  grows s s' → n s' = n s ∧ m s' = m s ∧ grid s' = grid s.
Proof. induction 1 as [|s s' x y r _ _ _ IH]; [done|]. by simpl in IH. Qed.

Lemma grows_cells (s s' : CityGrid) : grows s s' → cells s' = cells s.
Proof. intros (Hn & Hm & _)%grows_grid. unfold cells. by rewrite Hn, Hm. Qed.

Lemma grows_shaped (s s' : CityGrid) : grows s s' → shaped s → shaped s'.
Proof.
  intros (Hn & Hm & Hg)%grows_grid. unfold shaped. by rewrite Hn, Hm, Hg.
Qed.

Lemma uncovered_no_tower (s : CityGrid) (x y : Z) (t : tower) :
  uncovered s (x, y) = true → t ∈ towers s → site t ≠ (x, y).
Proof.
  intros [_ Hcount]%uncovered_spec Ht Hsite.
  rewrite coverageCount_zero in Hcount. specialize (Hcount t Ht).
  destruct t as [[tx ty] tr]. unfold site in Hsite. simpl in Hsite.
  injection Hsite as -> ->. by rewrite reaches_own in Hcount.
Qed.

Lemma grows_fresh (s s' : CityGrid) :
  grows s s' →
  ∃ added, towers s' = towers s ++ added ∧ fresh_sites (towers s) added.
Proof.
  induction 1 as [s|s s' x y r Hc Hu _ (added & Heq & Hnd & Hfresh)].
  - exists []. rewrite app_nil_r. split; [done|]. split; [constructor|].
    intros a t Ha. by apply elem_of_nil in Ha.
  - exists ((x, y, r) :: added). simpl in Heq, Hfresh.
    rewrite Heq, <- app_assoc. split; [done|]. split.
    + simpl. apply NoDup_cons. split; [|done].
      intros (a & Hsite & Ha)%list_elem_of_fmap.
      apply (Hfresh a (x, y, r) Ha); [|done].
      apply elem_of_app. right. by left.
    + intros a t [->|Ha]%elem_of_cons Ht.
      * intros Hsite. by apply (uncovered_no_tower s x y t).
      * apply Hfresh; [done|]. apply elem_of_app. by left.
Qed.

(** Building on an open cell closes it and opens none. *)
Lemma open_cells_step (s : CityGrid) (x y r : Z) :
  (x, y) ∈ cells s → uncovered s (x, y) = true →
  (open_cells (set_towers s (towers s ++ [(x, y, r)])) < open_cells s)%nat.
Proof.
  intros Hc Hu. unfold open_cells.
  change (cells (set_towers s (towers s ++ [(x, y, r)]))) with (cells s).
  set (s1 := set_towers s (towers s ++ [(x, y, r)])).
  assert (Hsub : ∀ c, uncovered s1 c = true → uncovered s c = true).
  { intros [cx cy]. rewrite !uncovered_spec. unfold s1.
    rewrite grid_at_set_towers. simpl. rewrite coverageCount_snoc.
    intros [Hg Hcount]. split; [done|].
    pose proof (coverageCount_nonneg (towers s) cx cy).
    destruct (reaches cx cy (x, y, r)); lia. }
  rewrite <- (list_filter_filter_l _ (λ c, uncovered s c = true)) by done.
  apply (length_filter_lt _ _ (x, y)).
  - by apply list_elem_of_filter.
  - rewrite uncovered_spec. unfold s1. simpl.
    rewrite coverageCount_snoc, reaches_own.
    pose proof (coverageCount_nonneg (towers s) x y). lia.
Qed.

Lemma grows_open_cells (s s' : CityGrid) :
  grows s s' → (open_cells s' ≤ open_cells s)%nat.
Proof.
  induction 1 as [|s s' x y r Hc Hu _ IH]; [done|].
  pose proof (open_cells_step s x y r Hc Hu). lia.
Qed.

Lemma open_cells_bound (s : CityGrid) : (open_cells s < loop_bound s)%nat.
Proof.
  unfold open_cells, loop_bound.
  pose proof (length_filter (λ c, uncovered s c = true) (cells s)). lia.
Qed.

(** The loop counter never runs out when it starts above the number of
    open cells. *)
Lemma while_budget_ends (fuel : nat) (t : tower_type) (s : CityGrid)
    (dist : option Z) (remaining : Z) :
  (open_cells s < fuel)%nat →
  (while_budget fuel t s dist remaining).2 ≠ FuelSpent.
Proof.
  revert s dist remaining.
  induction fuel as [|fuel IH]; intros s dist remaining Hfuel; [lia|].
  simpl.
  destruct (cost t <=? remaining); [|done].
  destruct (scan s t _) as [loc| |] eqn:Hscan; [|done|].
  - apply scan_sound in Hscan; [|by intros c [=]].
    destruct (best_tower loc) as [[x y]|] eqn:Hbest; [|done].
    destruct (Hscan _ Hbest) as [Hc Hu].
    rewrite (place_tower_open s x y (range t) Hc Hu).
    apply IH. pose proof (open_cells_step s x y (range t) Hc Hu). lia.
  - by apply scan_fuel in Hscan.
Qed.

(** Above that number, the result does not depend on the counter. *)
Lemma while_budget_fuel (fuel fuel' : nat) (t : tower_type) (s : CityGrid)
    (dist : option Z) (remaining : Z) :
  (open_cells s < fuel)%nat → (fuel ≤ fuel')%nat →
  while_budget fuel' t s dist remaining = while_budget fuel t s dist remaining.
Proof.
  revert fuel' s dist remaining.
  induction fuel as [|fuel IH]; intros fuel' s dist remaining Hopen Hle;
    [lia|].
  destruct fuel' as [|fuel']; [lia|]. simpl.
  destruct (cost t <=? remaining); [|done].
  destruct (scan s t _) as [loc| |] eqn:Hscan; [|done..].
  apply scan_sound in Hscan; [|by intros c [=]].
  destruct (best_tower loc) as [[x y]|] eqn:Hbest; [|done].
  destruct (Hscan _ Hbest) as [Hc Hu].
  rewrite (place_tower_open s x y (range t) Hc Hu).
  apply IH; [|lia].
  pose proof (open_cells_step s x y (range t) Hc Hu). lia.
Qed.

(** What one tower type spends: the towers it adds cost no more than the
    budget the loop started with. *)
Lemma while_budget_spend (fuel : nat) (t : tower_type) (s : CityGrid)
    (dist : option Z) (remaining : Z) :
  0 ≤ cost t → 0 ≤ remaining →
  ∃ added,
    towers (while_budget fuel t s dist remaining).1.1 = towers s ++ added ∧
    Z.of_nat (length added) * cost t ≤ remaining.
Proof.
  intros Hcost. revert s dist remaining.
  assert (Hnone : ∀ s : CityGrid, ∀ remaining, 0 ≤ remaining →
    ∃ added, towers s = towers s ++ added ∧
             Z.of_nat (length added) * cost t ≤ remaining).
  { intros s remaining Hrem. exists []. by rewrite app_nil_r. }
  induction fuel as [|fuel IH]; intros s dist remaining Hrem; simpl;
    [by apply Hnone|].
  destruct (Z.leb_spec (cost t) remaining) as [Hle|]; [|by apply Hnone].
  destruct (scan s t _) as [loc| |] eqn:Hscan; [|by apply Hnone..].
  destruct (best_tower loc) as [[x y]|] eqn:Hbest; [|by apply Hnone].
  apply scan_sound in Hscan; [|by intros c [=]].
  destruct (Hscan _ Hbest) as [Hc Hu].
  rewrite (place_tower_open s x y (range t) Hc Hu).
  destruct (IH (set_towers s (towers s ++ [(x, y, range t)])) (distance loc)
              (remaining - cost t)) as (added & Heq & Hsum); [lia|].
  exists ((x, y, range t) :: added). simpl in Heq.
  rewrite Heq, <- app_assoc. split; [done|]. simpl length. lia.
Qed.

(** ** The loop over the tower types *)

Lemma optimize_types_grows (fuel : nat) (budget : Z)
    (tys : list tower_type) (s : CityGrid) (dist : option Z) :
  grows s (optimize_types fuel budget tys s dist).1.1.
Proof.
  revert s dist. induction tys as [|t tys IH]; intros s dist; simpl;
    [apply grows_refl|].
  pose proof (while_budget_grows fuel t s dist budget) as Hg.
  destruct (while_budget fuel t s dist budget) as [[s' d'] c].
  simpl in Hg. destruct c; [|done..].
  eapply grows_trans; [done|apply IH].
Qed.

Lemma optimize_types_cons (fuel : nat) (budget : Z) (t : tower_type)
    (rest : list tower_type) (s : CityGrid) (dist : option Z) :
  optimize_types fuel budget (t :: rest) s dist =
  match while_budget fuel t s dist budget with
  | (s', dist', Returned) => optimize_types fuel budget rest s' dist'
  | stopped => stopped
  end.
Proof. done. Qed.

Lemma optimize_types_app (fuel : nat) (budget : Z)
    (pre post : list tower_type) (s : CityGrid) (dist : option Z) :
  optimize_types fuel budget (pre ++ post) s dist =
  match optimize_types fuel budget pre s dist with
  | (s1, d1, Returned) => optimize_types fuel budget post s1 d1
  | stopped => stopped
  end.
Proof.
  revert s dist. induction pre as [|t pre IH]; intros s dist; simpl; [done|].
  destruct (while_budget fuel t s dist budget) as [[s' d'] []]; auto.
Qed.

Lemma optimize_types_ends (fuel : nat) (budget : Z)
    (tys : list tower_type) (s : CityGrid) (dist : option Z) :
  (open_cells s < fuel)%nat →
  (optimize_types fuel budget tys s dist).2 ≠ FuelSpent.
Proof.
  revert s dist. induction tys as [|t tys IH]; intros s dist Hopen; simpl;
    [done|].
  pose proof (while_budget_grows fuel t s dist budget) as Hg.
  pose proof (while_budget_ends fuel t s dist budget Hopen) as Hend.
  destruct (while_budget fuel t s dist budget) as [[s' d'] c].
  simpl in Hg, Hend. destruct c; [|done..].
  apply IH. apply grows_open_cells in Hg. lia.
Qed.

Lemma optimize_types_fuel (fuel fuel' : nat) (budget : Z)
    (tys : list tower_type) (s : CityGrid) (dist : option Z) :
  (open_cells s < fuel)%nat → (fuel ≤ fuel')%nat →
  optimize_types fuel' budget tys s dist
    = optimize_types fuel budget tys s dist.
Proof.
  revert s dist. induction tys as [|t tys IH]; intros s dist Hopen Hle;
    simpl; [done|].
  rewrite (while_budget_fuel fuel fuel') by done.
  pose proof (while_budget_grows fuel t s dist budget) as Hg.
  destruct (while_budget fuel t s dist budget) as [[s' d'] c].
  simpl in Hg. destruct c; [|done..].
  apply IH; [|done]. apply grows_open_cells in Hg. lia.
Qed.

Lemma coverageCount_own (ts : list tower) (t : tower) :
  t ∈ ts → 1 ≤ coverageCount ts (site t).1 (site t).2.
Proof.
  intros Ht. unfold coverageCount.
  assert (Hin : t ∈ filter (λ o, reaches (site t).1 (site t).2 o = true) ts).
  { apply list_elem_of_filter. split; [|done].
    destruct t as [[x y] r]. apply reaches_own. }
  destruct (filter _ ts); [by apply elem_of_nil in Hin|]. simpl. lia.
Qed.

(** C10.  A cell with a tower on it is covered at least once, by that
    tower, whatever its range; so the scan never picks it, and the towers a
    call of [optimize_tower_placement] adds stand on pairwise distinct
    cells, none of which held a tower before the call. *)
Theorem optimize_fresh_sites (s : CityGrid) (budget : Z)
    (tys : list tower_type) :
  (∀ ts t, t ∈ ts → 1 ≤ coverageCount ts (site t).1 (site t).2) ∧
  ∃ added,
    towers (optimize_tower_placement s budget tys).1 = towers s ++ added ∧
    NoDup (site <$> added) ∧
    ∀ a t, a ∈ added → t ∈ towers s → site a ≠ site t.
Proof.
  split; [apply coverageCount_own|].
  unfold optimize_tower_placement. simpl.
  destruct (grows_fresh s _
    (optimize_types_grows (loop_bound s) budget tys s None))
    as (added & Heq & Hnd & Hfresh).
  by exists added.
Qed.

Lemma optimize_fresh_sites_witness :
  1 ≤ coverageCount [(0, 0, 0); (2, 1, 0)] 2 1.
Proof.
  destruct (optimize_fresh_sites (open_city 3 3 [(0, 0, 0)]) 0 [])
    as [Hown _].
  apply (Hown [(0, 0, 0); (2, 1, 0)] (2, 1, 0)).
  apply elem_of_cons. right. apply elem_of_cons. by left.
Defined.

(** C6.  A call with an [int] budget and [int] costs that are not negative
    only appends to the registry, and each tower type is given the whole
    budget anew: whenever the types before [t] have been processed, the
    towers the loop for [t] appends cost together at most [budget], and
    they stay in the registry to the end of the call. *)
Theorem optimize_budget (s : CityGrid) (budget : Z) (tys : list tower_type) :
  0 ≤ budget → Forall (λ t, 0 ≤ cost t) tys →
  let final := (optimize_tower_placement s budget tys).1 in
  (length (towers s) ≤ length (towers final))%nat ∧
  (∃ added, towers final = towers s ++ added) ∧
  ∀ pre t post s1 d1,
    tys = pre ++ t :: post →
    optimize_types (loop_bound s) budget pre s None = (s1, d1, Returned) →
    ∃ s2 d2 c added later,
      while_budget (loop_bound s) t s1 d1 budget = (s2, d2, c) ∧
      towers s2 = towers s1 ++ added ∧
      Z.of_nat (length added) * cost t ≤ budget ∧
      towers final = towers s2 ++ later.
Proof.
  intros Hbudget Hcosts final.
  destruct (grows_fresh s final) as (added & Heq & _).
  { apply optimize_types_grows. }
  split_and!.
  - rewrite Heq, length_app. lia.
  - by exists added.
  - intros pre t post s1 d1 -> Hpre.
    destruct (while_budget_spend (loop_bound s) t s1 d1 budget)
      as (added_t & Ht & Hsum); [|done|].
    { rewrite Forall_app, Forall_cons in Hcosts. tauto. }
    destruct (while_budget (loop_bound s) t s1 d1 budget)
      as [[s2 d2] c] eqn:Hwhile.
    simpl in Ht.
    assert (Hlater : grows s2 final).
    { unfold final, optimize_tower_placement. simpl.
      rewrite optimize_types_app, Hpre, optimize_types_cons, Hwhile.
      destruct c; simpl; try apply grows_refl.
      apply optimize_types_grows. }
    apply grows_fresh in Hlater as (later & Hl & _).
    by exists s2, d2, c, added_t, later.
Qed.

Lemma optimize_budget_witness :
  Nat.le (length (towers (open_city 3 3 [(0, 0, 1)])))
    (length (towers (optimize_tower_placement (open_city 3 3 [(0, 0, 1)]) 5
                       [mkTowerType 1 10 2; mkTowerType 0 3 1]).1)).
Proof.
  apply (optimize_budget (open_city 3 3 [(0, 0, 1)]) 5
           [mkTowerType 1 10 2; mkTowerType 0 3 1]); [lia|].
  repeat constructor; simpl; lia.
Defined.

(** The scan reads the coverage score of the type and nothing else. *)
Lemma scan_reads_coverage (s : CityGrid) (t t' : tower_type) (loc : locals) :
  coverage t = coverage t' → scan s t loc = scan s t' loc.
Proof.
  intros Hcov. unfold scan.
  apply for_each_ext. intros loc1 x.
  apply for_each_ext. intros loc2 y.
  unfold scan_cell. by rewrite Hcov.
Qed.

(** The optimiser at [int] is the instance of the loop over any numbers at
    the number type [Z]. *)
Lemma while_budget_of_int (fuel : nat) (t : tower_type_of Z) (s : CityGrid)
    (dist : option Z) (remaining_budget : Z) :
  while_budget_of fuel t s dist remaining_budget
  = while_budget fuel (int_type t) s dist remaining_budget.
Proof.
  revert s dist remaining_budget.
  induction fuel as [|fuel IH]; intros s dist remaining_budget; [done|].
  simpl. rewrite (scan_reads_coverage s (scanned t) (int_type t)) by done.
  destruct (cost_of t <=? remaining_budget); [|done].
  destruct (scan s (int_type t) _) as [loc| |]; try done.
  destruct (best_tower loc) as [[x y]|]; [|done].
  destruct (place_tower s x y (range_of t)) as [s'| |]; [apply IH|done..].
Qed.

Lemma optimize_types_of_int (fuel : nat) (budget : Z)
    (tys : list (tower_type_of Z)) (s : CityGrid) (dist : option Z) :
  optimize_types_of fuel budget tys s dist
  = optimize_types fuel budget (int_type <$> tys) s dist.
Proof.
  revert s dist. induction tys as [|t tys IH]; intros s dist; [done|].
  simpl. rewrite while_budget_of_int.
  destruct (while_budget fuel (int_type t) s dist budget) as [[s' d'] []];
    [apply IH|done..].
Qed.

Lemma optimize_tower_placement_of_int (s : CityGrid) (budget : Z)
    (tys : list (tower_type_of Z)) :
  optimize_tower_placement_of s budget tys
  = optimize_tower_placement s budget (int_type <$> tys).
Proof.
  unfold optimize_tower_placement_of, optimize_tower_placement.
  by rewrite optimize_types_of_int.
Qed.

(** C6, as the specification has it, fails: budget and costs are numbers,
    and with floats the towers of one type can cost more than the budget.
    On a row of eleven passable cells with a tower of range 0 on the first,
    [optimize_tower_placement(budget=1.0, tower_types=[{'range': 0,
    'coverage': 1, 'cost': 0.1}])] returns after building ten towers:
    line 97 rounds each difference, the remaining budget runs through 0.9,
    0.8, 0.7000000000000001, ... and is 0.10000000000000014 before the
    tenth pass.  The float 0.1 is a little more than one tenth, so the ten
    costs add up to more than 1. *)
Lemma optimize_budget_float_overspends :
  let one := float_of_int 1 in
  let tenth := float_div (float_of_int 1) (float_of_int 10) in
  let s := open_city 1 11 [(0, 0, 0)] in
  ∃ added,
    optimize_tower_placement_of s one [mkTowerTypeOf 0 1 tenth]
      = (set_towers s (towers s ++ added), Returned) ∧
    float_value one = Some 1%Q ∧
    float_value tenth = Some (3602879701896397 # 36028797018963968) ∧
    (1 < inject_Z (Z.of_nat (length added))
         * (3602879701896397 # 36028797018963968))%Q.
Proof.
  exists ((λ y, (0, y, 0)) <$> seqZ 1 10).
  split_and!; by vm_compute.
Qed.

(** ** The scan finds the first open cell *)

Section scan_spec.
Variable s : CityGrid.
Variable t : tower_type.
Hypothesis Hshaped : shaped s.

Lemma scan_cells_spec (cs : list (Z * Z)) (loc : locals) :
  (∀ c, c ∈ cs → c ∈ cells s) →
  match for_each cs (λ st c, scan_cell s t c.1 st c.2) loc with
  | Ok loc' =>
      ¬ scan_raises s t cs loc ∧
      best_tower loc' = scan_best s t cs loc ∧
      (towers s = [] → distance loc' = distance loc)
  | Raise e => e = UnboundLocalError ∧ scan_raises s t cs loc
  | OutOfFuel => False
  end.
Proof.
  set (body := λ st c, scan_cell s t c.1 st c.2).
  revert loc. induction cs as [|[x y] cs IH]; intros loc Hcs.
  - simpl. unfold scan_raises, scan_best. simpl.
    split_and!; [tauto| |done]. by case_match.
  - assert (Hc : (x, y) ∈ cells s) by (apply Hcs; left).
    assert (Hcs' : ∀ c, c ∈ cs → c ∈ cells s).
    { intros c Hin. apply Hcs. by right. }
    apply elem_of_cells in Hc as [Hx Hy].
    destruct (shaped_grid_at s x y Hshaped Hx Hy) as [b Hb].
    unfold scan_raises, scan_best in *.
    rewrite filter_cons.
    pose proof (uncovered_spec s x y) as Hopen.
    rewrite Hb in Hopen.
    change (for_each ((x, y) :: cs) body loc)
      with (scan_cell s t x loc y ≫= for_each cs body).
    unfold scan_cell. rewrite Hb. simpl.
    destruct b.
    + pose proof (cover_loop_count x y (towers s) (distance loc)) as Hcount.
      pose proof (cover_loop_binds x y (towers s) (distance loc)) as Hbind.
      destruct (cover_loop x y (towers s) (distance loc)) as [total d]
        eqn:Hloop.
      simpl in Hcount, Hbind. subst total.
      assert (Hkeep : towers s = [] → d = distance loc).
      { intros Hnil. rewrite Hnil in Hloop. unfold cover_loop in Hloop.
        simpl in Hloop. congruence. }
      clear Hloop.
      destruct (Z.eqb_spec (coverageCount (towers s) x y) 0) as [Hzero|Hpos].
      * rewrite decide_True by tauto. simpl.
        destruct (Z.ltb_spec (best_coverage loc) (coverage t)) as [Hlt|Hge].
        -- destruct d as [d|].
           ++ simpl. specialize (IH
                {| best_tower := Some (x, y); best_coverage := coverage t;
                   best_distance := d; distance := Some d |} Hcs').
              simpl in IH. rewrite Z.ltb_irrefl in IH.
              destruct (for_each cs body _) as [loc'|e|]; [|lia|done].
              destruct IH as (_ & Hbest & Hdist).
              split_and!; [|done|].
              ** intros (_ & _ & Hnil & Hnone).
                 rewrite <- Hkeep in Hnone; done.
              ** intros Hnil. rewrite Hdist, Hkeep; done.
           ++ simpl. split; [done|].
              assert (Hnil : towers s = []).
              { destruct (towers s); [done|]. by destruct Hbind. }
              split_and!; try done. by rewrite <- Hkeep.
        -- simpl. specialize (IH
             {| best_tower := best_tower loc;
                best_coverage := best_coverage loc;
                best_distance := best_distance loc; distance := d |} Hcs').
           simpl in IH.
           destruct (Z.ltb_spec (best_coverage loc) (coverage t)); [lia|].
           destruct (for_each cs body _) as [loc'|e|]; [|lia|done].
           destruct IH as (_ & Hbest & Hdist).
           split_and!; [lia|done|].
           intros Hnil. rewrite Hdist by done. by apply Hkeep.
      * rewrite decide_False by tauto. simpl.
        assert (Hts : towers s ≠ []).
        { intros Hnil. rewrite Hnil in Hpos. by apply Hpos. }
        specialize (IH
          {| best_tower := best_tower loc;
             best_coverage := best_coverage loc;
             best_distance := best_distance loc; distance := d |} Hcs').
        simpl in IH.
        destruct (for_each cs body _) as [loc'|e|]; [|tauto|done].
        destruct IH as (_ & Hbest & Hdist).
        split_and!; [tauto|done|done].
    + rewrite decide_False by (by intros [[=] _]%Hopen).
      simpl. specialize (IH loc Hcs').
      destruct (for_each cs body loc) as [loc'|e|]; done.
Qed.
End scan_spec.

Lemma scan_spec (s : CityGrid) (t : tower_type) (dist : option Z) :
  shaped s →
  match scan s t {| best_tower := None; best_coverage := 0;
                    best_distance := 0; distance := dist |} with
  | Ok loc =>
      best_tower loc = (if 0 <? coverage t then first_uncovered s else None) ∧
      (0 < coverage t → towers s = [] → dist = None →
       first_uncovered s = None)
  | Raise e =>
      e = UnboundLocalError ∧ 0 < coverage t ∧ towers s = [] ∧
      dist = None ∧ first_uncovered s ≠ None
  | OutOfFuel => False
  end.
Proof.
  intros Hs. rewrite scan_cells.
  pose proof (scan_cells_spec s t Hs (cells s)
    {| best_tower := None; best_coverage := 0; best_distance := 0;
       distance := dist |}) as Hspec.
  unfold scan_raises, scan_best, first_uncovered in *. simpl in Hspec.
  destruct (for_each (cells s) _ _) as [loc|e|]; [| |by apply Hspec].
  - destruct Hspec as (Hno & Hbest & _); [done|]. split.
    + rewrite Hbest. by repeat case_match.
    + intros Hcov Hnil Hdist.
      destruct (head _) as [c|]; [|done]. exfalso. by apply Hno.
  - destruct Hspec as (-> & Hcov & Hhead & Hnil & Hdist); done.
Qed.

(** ** The loops against the specification's wording *)

Lemma while_budget_reference (fuel : nat) (t : tower_type) (s : CityGrid)
    (dist : option Z) (remaining : Z) :
  shaped s → towers s ≠ [] →
  let r := while_budget fuel t s dist remaining in
  (r.1.1, r.2) = place_first_uncovered fuel t s remaining.
Proof.
  revert s dist remaining.
  induction fuel as [|fuel IH]; intros s dist remaining Hs Hts; [done|].
  simpl. destruct (cost t <=? remaining); [|done].
  pose proof (scan_spec s t dist Hs) as Hspec.
  destruct (scan s t _) as [loc|e|]; [| |done].
  - destruct Hspec as [Hbest _]. rewrite Hbest.
    destruct (if 0 <? coverage t then first_uncovered s else None)
      as [[x y]|] eqn:Hfirst; [|done].
    assert (Hopen : (x, y) ∈ cells s ∧ uncovered s (x, y) = true).
    { destruct (0 <? coverage t); [|done].
      apply head_Some_elem_of, list_elem_of_filter in Hfirst. tauto. }
    destruct Hopen as [Hc Hu].
    rewrite (place_tower_open s x y (range t) Hc Hu).
    apply IH; [done|]. simpl. by destruct (towers s).
  - by destruct Hspec as (_ & _ & Hnil & _).
Qed.

Lemma optimize_types_reference (fuel : nat) (budget : Z)
    (tys : list tower_type) (s : CityGrid) (dist : option Z) :
  shaped s → towers s ≠ [] →
  let r := optimize_types fuel budget tys s dist in
  (r.1.1, r.2) = optimize_reference fuel budget tys s.
Proof.
  revert s dist. induction tys as [|t tys IH]; intros s dist Hs Hts; [done|].
  simpl.
  pose proof (while_budget_reference fuel t s dist budget Hs Hts) as Href.
  pose proof (while_budget_grows fuel t s dist budget) as Hg.
  destruct (while_budget fuel t s dist budget) as [[s' d'] c].
  simpl in Href, Hg. rewrite <- Href.
  destruct c; [|done..].
  apply IH; [by eapply grows_shaped|].
  apply grows_fresh in Hg as (added & -> & _). by destruct (towers s).
Qed.

(** C2, as the code has it.  On a grid of [n] rows of [m] cells and a
    registry that already holds a tower, [optimize_tower_placement] is the
    reference optimiser: for each type in order and while the remaining
    budget covers its cost, a type with a positive coverage score builds a
    tower of its range on the first passable cell, in row-major order, that
    no tower of the registry as it is at that moment covers, and pays the
    cost; a type whose coverage score is not positive builds nothing.  The
    reference run is complete: its loops end by themselves. *)
Theorem optimize_places_first_uncovered (s : CityGrid) (budget : Z)
    (tys : list tower_type) :
  shaped s → towers s ≠ [] →
  optimize_tower_placement s budget tys
    = optimize_reference (loop_bound s) budget tys s ∧
  (optimize_reference (loop_bound s) budget tys s).2 ≠ FuelSpent.
Proof.
  intros Hs Hts.
  pose proof (optimize_types_reference (loop_bound s) budget tys s None
                Hs Hts) as Href.
  simpl in Href. unfold optimize_tower_placement. simpl.
  split; [done|]. rewrite <- Href. simpl.
  apply optimize_types_ends, open_cells_bound.
Qed.

Lemma optimize_places_first_uncovered_witness :
  optimize_tower_placement (open_city 2 2 [(0, 0, 0)]) 2 [mkTowerType 1 5 1]
    = optimize_reference (loop_bound (open_city 2 2 [(0, 0, 0)])) 2
        [mkTowerType 1 5 1] (open_city 2 2 [(0, 0, 0)]).
Proof.
  apply (optimize_places_first_uncovered (open_city 2 2 [(0, 0, 0)]) 2
           [mkTowerType 1 5 1]); [|done].
  repeat split; simpl; try lia. repeat constructor.
Defined.

(** C2, as the specification has it, fails.  On one row of two passable
    cells with a tower of range 0 on the first, the second cell is passable
    and uncovered and the budget 5 covers the cost 1, yet a type whose
    coverage score is 0 builds nothing. *)
Lemma optimize_skips_open_cell :
  let s := open_city 1 2 [(0, 0, 0)] in
  let t := {| range := 1; coverage := 0; cost := 1 |} in
  first_uncovered s = Some (0, 1) ∧ cost t ≤ 5 ∧
  optimize_tower_placement s 5 [t] = (s, Returned).
Proof. vm_compute. split_and!; (reflexivity || discriminate). Qed.

(** On an empty registry the scan reads [distance] before any statement
    has bound it: the call raises [UnboundLocalError] at the first passable
    cell and builds nothing. *)
Lemma optimize_empty_registry_raises :
  optimize_tower_placement (open_city 10 10 []) 1000
    [{| range := 2; coverage := 10; cost := 200 |};
     {| range := 3; coverage := 15; cost := 300 |}]
  = (open_city 10 10 [], Raised UnboundLocalError).
Proof. vm_compute. reflexivity. Qed.

(** C7.  [optimize_tower_placement] ends on every input: the loop counter
    of the model never runs out, a larger counter gives the same result,
    and on a grid with no open cell the loop of a type, whatever its cost
    (0 included), is left in its first pass with the registry
    untouched. *)
Theorem optimize_terminates (s : CityGrid) (budget : Z)
    (tys : list tower_type) :
  (optimize_tower_placement s budget tys).2 ≠ FuelSpent ∧
  (∀ k, optimize_types (loop_bound s + k) budget tys s None
        = optimize_types (loop_bound s) budget tys s None) ∧
  (∀ t dist remaining fuel,
     shaped s → first_uncovered s = None →
     ∃ d, while_budget (S fuel) t s dist remaining = (s, d, Returned)).
Proof.
  split_and!.
  - unfold optimize_tower_placement. simpl.
    apply optimize_types_ends, open_cells_bound.
  - intros k. apply optimize_types_fuel; [apply open_cells_bound|lia].
  - intros t dist remaining fuel Hs Hnone. simpl.
    destruct (cost t <=? remaining); [|by eexists].
    pose proof (scan_spec s t dist Hs) as Hspec.
    destruct (scan s t _) as [loc|e|]; [| |done].
    + destruct Hspec as [Hbest _]. rewrite Hbest, Hnone.
      destruct (0 <? coverage t); by eexists.
    + by destruct Hspec as (_ & _ & _ & _ & Hsome).
Qed.

Lemma optimize_terminates_witness :
  ∃ d, while_budget 1 {| range := 1; coverage := 5; cost := 0 |}
         (open_city 1 1 [(0, 0, 0)]) None 0
       = (open_city 1 1 [(0, 0, 0)], d, Returned).
Proof.
  destruct (optimize_terminates (open_city 1 1 [(0, 0, 0)]) 0 [])
    as (_ & _ & Hexit).
  apply Hexit; [|reflexivity].
  repeat split; simpl; try lia. repeat constructor.
Defined.

(** ** The search for a shortest path *)

Lemma pop_min_perm (e : entry) (q : list entry) :
  e :: q ≡ₚ (pop_min e q).1 :: (pop_min e q).2.
Proof.
  revert e. induction q as [|e' q IH]; intros e; simpl; [done|].
  destruct (e'.1.1 <? e.1.1).
  - specialize (IH e'). destruct (pop_min e' q) as [mn r]. simpl in *.
    rewrite IH. apply Permutation_swap.
  - specialize (IH e). destruct (pop_min e q) as [mn r]. simpl in *.
    rewrite (Permutation_swap e' e q), IH. apply Permutation_swap.
Qed.

Lemma pop_min_least (e : entry) (q : list entry) (e' : entry) :
  e' ∈ e :: q → (pop_min e q).1.1.1 ≤ e'.1.1.
Proof.
  revert e e'. induction q as [|e1 q IH]; intros e e'; simpl.
  - intros ->%list_elem_of_singleton. lia.
  - intros Hin. destruct (Z.ltb_spec e1.1.1 e.1.1) as [Hlt|Hge].
    + pose proof (IH e1) as IH1.
      assert (Hself := IH1 e1 ltac:(left)).
      destruct (pop_min e1 q) as [mn r]. simpl in *.
      apply elem_of_cons in Hin as [->|Hin]; [lia|]. by apply IH1.
    + pose proof (IH e) as IH1.
      assert (Hself := IH1 e ltac:(left)).
      destruct (pop_min e q) as [mn r]. simpl in *.
      apply elem_of_cons in Hin as [->|Hin]; [done|].
      apply elem_of_cons in Hin as [->|Hin]; [lia|].
      apply IH1. by right.
Qed.

Lemma walk_head (G : Graph) (u v d : Z) (p : list Z) :
  walk G u p v d → ∃ p', p = u :: p'.
Proof.
  induction 1 as [|p v x d w _ [p' ->] _]; [by exists []|].
  by exists (p' ++ [x]).
Qed.

Lemma walk_last (G : Graph) (u v d : Z) (p : list Z) :
  walk G u p v d → ∃ p0, p = p0 ++ [v].
Proof. destruct 1 as [|p v x d w _ _]; [by exists []|by exists p]. Qed.

Lemma elem_of_push_neighbours (G : Graph) (d v : Z) (p : list Z)
    (e : entry) :
  e ∈ push_neighbours G d v p ↔
  ∃ x w, edge_weight G v x = Some w ∧ e = (d + w, x, p ++ [x]).
Proof.
  unfold push_neighbours, edge_weight. rewrite list_elem_of_fmap. split.
  - intros ([x w] & -> & Hxw%elem_of_map_to_list). exists x, w.
    split; [|done]. destruct (G !! v); [done|].
    simpl in Hxw. by rewrite lookup_empty in Hxw.
  - intros (x & w & Hxw & ->). exists (x, w). split; [done|].
    apply elem_of_map_to_list. by destruct (G !! v).
Qed.

Section dijkstra.
Variable G : Graph.
Variables source target : Z.
Hypothesis Hnonneg : ∀ u v w, edge_weight G u v = Some w → 0 ≤ w.

(** A path out of the source ends on a settled node or is at least as
    long as some fringe entry. *)
Lemma walk_frontier (dist : gmap Z Z) (fringe : list entry)
    (p : list Z) (x d : Z) :
  dijkstra_inv G source target dist fringe →
  walk G source p x d →
  is_Some (dist !! x) ∨ ∃ e, e ∈ fringe ∧ e.1.1 ≤ d.
Proof.
  intros (_ & Hopt & Hedge & Hsrc & _).
  induction 1 as [|p v x d w Hwalk IH Hw].
  - destruct Hsrc as [?|Hin]; [by left|]. right. by eexists.
  - pose proof (Hnonneg _ _ _ Hw) as Hpos.
    destruct IH as [[dv Hv]|(e & He & Hle)].
    + pose proof (Hopt v dv Hv p d Hwalk) as Hdv.
      destruct (Hedge v dv x w Hv Hw) as [?|(d' & p' & Hin & Hd')];
        [by left|].
      right. eexists. split; [done|]. simpl. lia.
    + right. exists e. split; [done|]. lia.
Qed.

(** The entry popped first, when its node is not settled, carries a
    shortest path to the node. *)
Lemma pop_min_shortest (dist : gmap Z Z) (e : entry) (q : list entry)
    (p : list Z) (d' : Z) :
  dijkstra_inv G source target dist (e :: q) →
  dist !! (pop_min e q).1.1.2 = None →
  walk G source p (pop_min e q).1.1.2 d' →
  (pop_min e q).1.1.1 ≤ d'.
Proof.
  intros Hinv Hnew Hwalk.
  destruct (walk_frontier dist (e :: q) p _ d' Hinv Hwalk)
    as [[? Hsome]|(e' & Hin & Hle)]; [congruence|].
  pose proof (pop_min_least e q e' Hin). lia.
Qed.

Lemma dijkstra_inv_skip (dist : gmap Z Z) (e : entry) (q : list entry) :
  dijkstra_inv G source target dist (e :: q) →
  is_Some (dist !! (pop_min e q).1.1.2) →
  dijkstra_inv G source target dist (pop_min e q).2.
Proof.
  intros (Hpath & Hopt & Hedge & Hsrc & Htgt) Hold.
  pose proof (pop_min_perm e q) as Hperm.
  destruct (pop_min e q) as [[[d v] p] rest]. simpl in *.
  assert (Hin : ∀ e', e' ∈ e :: q → e' = (d, v, p) ∨ e' ∈ rest).
  { intros e'. rewrite Hperm. apply elem_of_cons. }
  assert (Hsub : ∀ e', e' ∈ rest → e' ∈ e :: q).
  { intros e' He'. rewrite Hperm. by right. }
  split_and!; [|done| | |done].
  - intros d1 v1 p1 H1. apply Hpath. by apply Hsub.
  - intros u du x w Hu Hw.
    destruct (Hedge u du x w Hu Hw) as [?|(d1 & p1 & H1 & Hle)];
      [by left|].
    destruct (Hin _ H1) as [[= -> -> ->]|Hrest]; [by left|].
    right. by exists d1, p1.
  - destruct Hsrc as [?|H1]; [by left|].
    destruct (Hin _ H1) as [[= <- <- <-]|Hrest]; [by left|by right].
Qed.

Lemma dijkstra_inv_settle (dist : gmap Z Z) (e : entry) (q : list entry) :
  dijkstra_inv G source target dist (e :: q) →
  dist !! (pop_min e q).1.1.2 = None →
  (pop_min e q).1.1.2 ≠ target →
  dijkstra_inv G source target
    (<[(pop_min e q).1.1.2 := (pop_min e q).1.1.1]> dist)
    ((pop_min e q).2 ++
       push_neighbours G (pop_min e q).1.1.1 (pop_min e q).1.1.2
         (pop_min e q).1.2).
Proof.
  intros Hinv Hnew Hnot.
  pose proof (λ p d', pop_min_shortest dist e q p d' Hinv Hnew) as Hshort.
  destruct Hinv as (Hpath & Hopt & Hedge & Hsrc & Htgt).
  pose proof (pop_min_perm e q) as Hperm.
  destruct (pop_min e q) as [[[d v] p] rest]. simpl in *.
  assert (Hin : ∀ e', e' ∈ e :: q → e' = (d, v, p) ∨ e' ∈ rest).
  { intros e'. rewrite Hperm. apply elem_of_cons. }
  assert (Hsub : ∀ e', e' ∈ rest → e' ∈ e :: q).
  { intros e' He'. rewrite Hperm. by right. }
  assert (Hkeep : ∀ u, is_Some (dist !! u) → is_Some (<[v := d]> dist !! u)).
  { intros u Hu. rewrite lookup_insert. case_decide; [by eexists|done]. }
  destruct (Hpath d v p) as (Hwalk & p0 & -> & Hnd & Hsettled).
  { rewrite Hperm. by left. }
  split_and!.
  - intros d1 v1 p1 [H1|H1]%elem_of_app.
    + destruct (Hpath d1 v1 p1 (Hsub _ H1)) as (Hw1 & q0 & -> & Hnd1 & Hs1).
      split; [done|]. exists q0. split_and!; [done..|]. auto.
    + apply elem_of_push_neighbours in H1 as (x & w & Hw & [= -> -> ->]).
      split; [by apply (walk_edge _ _ _ v)|].
      exists (p0 ++ [v]). split_and!; [done| |].
      * apply NoDup_app. split_and!; [done| |apply NoDup_singleton].
        intros u Hu ->%list_elem_of_singleton.
        destruct (Hsettled v Hu) as [? Hsome]. congruence.
      * intros u [Hu| ->%list_elem_of_singleton]%elem_of_app; [by auto|].
        rewrite lookup_insert_eq. by eexists.
  - intros u du. rewrite lookup_insert. case_decide as Huv.
    + intros [= <-]. subst u. apply Hshort.
    + apply Hopt.
  - intros u du x w. rewrite lookup_insert. case_decide as Huv.
    + intros [= <-] Hw. subst u. right. exists (d + w), ((p0 ++ [v]) ++ [x]).
      split; [|lia]. apply elem_of_app. right.
      apply elem_of_push_neighbours. by exists x, w.
    + intros Hu Hw.
      destruct (Hedge u du x w Hu Hw) as [?|(d1 & p1 & H1 & Hle)];
        [by left; auto|].
      destruct (Hin _ H1) as [[= -> -> ->]|Hrest].
      * left. rewrite lookup_insert_eq. by eexists.
      * right. exists d1, p1. split; [|done]. apply elem_of_app. by left.
  - destruct Hsrc as [?|H1]; [by left; auto|].
    destruct (Hin _ H1) as [[= <- <- <-]|Hrest].
    + left. rewrite lookup_insert_eq. by eexists.
    + right. apply elem_of_app. by left.
  - by rewrite lookup_insert_ne.
Qed.

(** What the search returns is a shortest path, with no node twice; when
    it raises, no path exists. *)
Lemma dijkstra_sound (fuel : nat) (dist : gmap Z Z) (fringe : list entry) :
  dijkstra_inv G source target dist fringe →
  match dijkstra fuel G target dist fringe with
  | Ok (d, p) =>
      walk G source p target d ∧ NoDup p ∧
      ∀ p' d', walk G source p' target d' → d ≤ d'
  | Raise e =>
      e = NetworkXNoPath ∧ ∀ p' d', ¬ walk G source p' target d'
  | OutOfFuel => True
  end.
Proof.
  revert dist fringe.
  induction fuel as [|fuel IH]; intros dist fringe Hinv; simpl; [done|].
  destruct fringe as [|e q].
  - split; [done|]. intros p' d' Hwalk.
    destruct (walk_frontier dist [] p' target d' Hinv Hwalk)
      as [[? Hsome]|(e & He & _)].
    + destruct Hinv as (_ & _ & _ & _ & Htgt). congruence.
    + by apply elem_of_nil in He.
  - pose proof (dijkstra_inv_skip dist e q Hinv) as Hskip.
    pose proof (dijkstra_inv_settle dist e q Hinv) as Hsettle.
    pose proof (λ p d', pop_min_shortest dist e q p d' Hinv) as Hshort.
    pose proof (pop_min_perm e q) as Hperm.
    destruct Hinv as (Hpath & _).
    destruct (pop_min e q) as [[[d v] p] rest]. simpl in *.
    destruct (dist !! v) as [dv|] eqn:Hv.
    + apply IH, Hskip. by eexists.
    + destruct (Z.eqb_spec v target) as [->|Hne].
      * destruct (Hpath d target p) as (Hwalk & p0 & -> & Hnd & Hsettled).
        { rewrite Hperm. by left. }
        split_and!; [done| |by intros p' d'; apply Hshort].
        apply NoDup_app. split_and!; [done| |apply NoDup_singleton].
        intros u Hu ->%list_elem_of_singleton.
        destruct (Hsettled target Hu) as [? Hsome]. congruence.
      * apply IH. by apply Hsettle.
Qed.
End dijkstra.

(** *** The search ends *)

Lemma sum_list_with_agree {A} (f g : A → nat) (l : list A) :
  (∀ x, x ∈ l → f x = g x) → sum_list_with f l = sum_list_with g l.
Proof.
  induction l as [|a l IH]; intros Hfg; simpl; [done|].
  rewrite (Hfg a) by left. rewrite IH; [done|].
  intros x Hx. apply Hfg. by right.
Qed.

Lemma unsettled_degree_settle (G : Graph) (dist : gmap Z Z) (v d : Z) :
  dist !! v = None →
  (unsettled_degree G (<[v := d]> dist) + size (default ∅ (G !! v))
   = unsettled_degree G dist)%nat.
Proof.
  intros Hv. unfold unsettled_degree.
  destruct (G !! v) as [nb|] eqn:HG; simpl.
  - rewrite <- !(sum_list_with_Permutation_proper _ _ _
                   (map_to_list_delete G v nb HG)).
    simpl. rewrite lookup_insert_eq, Hv.
    rewrite (sum_list_with_agree _
      (λ vn : Z * gmap Z Z,
         if dist !! vn.1 is Some _ then 0%nat else size vn.2)); [lia|].
    intros [u nb'] [Hne _]%elem_of_map_to_list%lookup_delete_Some. simpl.
    by rewrite lookup_insert_ne.
  - rewrite map_size_empty, Nat.add_0_r.
    apply sum_list_with_agree.
    intros [u nb'] Hu%elem_of_map_to_list. simpl.
    rewrite lookup_insert_ne; [done|]. congruence.
Qed.

Lemma pop_min_length (e : entry) (q : list entry) :
  length (pop_min e q).2 = length q.
Proof.
  pose proof (Permutation_length (pop_min_perm e q)) as Hlen.
  simpl in Hlen. lia.
Qed.

Lemma length_push_neighbours (G : Graph) (d v : Z) (p : list Z) :
  length (push_neighbours G d v p) = size (default ∅ (G !! v)).
Proof.
  unfold push_neighbours. by rewrite length_fmap, length_map_to_list.
Qed.

Lemma dijkstra_ends (fuel : nat) (G : Graph) (target : Z)
    (dist : gmap Z Z) (fringe : list entry) :
  (length fringe + unsettled_degree G dist < fuel)%nat →
  dijkstra fuel G target dist fringe ≠ OutOfFuel.
Proof.
  revert dist fringe.
  induction fuel as [|fuel IH]; intros dist fringe Hfuel; [lia|].
  simpl. destruct fringe as [|e q]; [done|].
  pose proof (pop_min_length e q) as Hlen.
  destruct (pop_min e q) as [[[d v] p] rest]. simpl in *.
  destruct (dist !! v) as [dv|] eqn:Hv.
  - apply IH. lia.
  - destruct (v =? target); [done|].
    apply IH.
    pose proof (unsettled_degree_settle G dist v d Hv).
    rewrite length_app, length_push_neighbours. lia.
Qed.

Lemma unsettled_degree_empty (G : Graph) :
  unsettled_degree G ∅ = degree_sum G.
Proof.
  unfold unsettled_degree, degree_sum. apply sum_list_with_agree.
  intros vn _. by rewrite lookup_empty.
Qed.

(** *** [nx.shortest_path] and [find_reliable_path] *)

Lemma dijkstra_inv_init (G : Graph) (source target : Z) :
  dijkstra_inv G source target ∅ [(0, source, [source])].
Proof.
  split_and!.
  - intros d v p [= -> -> ->]%list_elem_of_singleton.
    split; [constructor|]. exists []. split_and!; [done|constructor|].
    intros u Hu. by apply elem_of_nil in Hu.
  - intros v d. by rewrite lookup_empty.
  - intros u du v w. by rewrite lookup_empty.
  - right. by left.
  - apply lookup_empty.
Qed.

Lemma nx_shortest_path_spec (G : Graph) (source target : Z) :
  (∀ u v w, edge_weight G u v = Some w → 0 ≤ w) →
  match nx_shortest_path G source target with
  | Ok p =>
      ∃ d, walk G source p target d ∧ NoDup p ∧
           ∀ p' d', walk G source p' target d' → d ≤ d'
  | Raise e =>
      (e = NodeNotFound ∧
       (has_node G source = false ∨ has_node G target = false)) ∨
      (e = NetworkXNoPath ∧ has_node G source = true ∧
       has_node G target = true ∧ ∀ p' d', ¬ walk G source p' target d')
  | OutOfFuel => False
  end.
Proof.
  intros Hnonneg. unfold nx_shortest_path.
  destruct (has_node G source) eqn:Hs; [|by left; auto].
  destruct (has_node G target) eqn:Ht; [|by left; auto].
  cbn [andb].
  pose proof (dijkstra_sound G source target Hnonneg (dijkstra_fuel G)
                ∅ [(0, source, [source])]
                (dijkstra_inv_init G source target)) as Hsound.
  pose proof (dijkstra_ends (dijkstra_fuel G) G target ∅
                [(0, source, [source])]) as Hends.
  destruct (dijkstra (dijkstra_fuel G) G target ∅ [(0, source, [source])])
    as [[d p]|e|]; simpl.
  - by exists d.
  - right. by destruct Hsound as [-> Hno].
  - apply Hends; [|done].
    rewrite unsettled_degree_empty. unfold dijkstra_fuel. simpl. lia.
Qed.

Lemma build_graph_nonneg (ts : list tower) (u v w : Z) :
  edge_weight (build_graph ts) u v = Some w → 0 ≤ w.
Proof.
  intros Hw. destruct (build_graph_sound ts) as [Hedge _].
  destruct (Hedge u v w Hw) as [(t & o & _ & _ & _ & -> & _)|
                                (t & o & _ & _ & _ & -> & _)];
    apply sq_dist_nonneg.
Qed.

Lemma edge_has_node (G : Graph) (u v w : Z) :
  edge_weight G u v = Some w → has_node G u = true.
Proof.
  unfold edge_weight, has_node. intros Hw. apply bool_decide_eq_true.
  destruct (G !! u); [by eexists|done].
Qed.

Lemma find_reliable_path_spec (s : CityGrid) (start end_ : Z) :
  let G := build_graph (towers s) in
  match find_reliable_path s start end_ with
  | Ok (Some path) =>
      ∃ d, walk G start path end_ d ∧ NoDup path ∧
           ∀ p' d', walk G start p' end_ d' → d ≤ d'
  | Ok None =>
      has_node G start = true ∧ has_node G end_ = true ∧
      ∀ p' d', ¬ walk G start p' end_ d'
  | Raise e =>
      e = NodeNotFound ∧
      (has_node G start = false ∨ has_node G end_ = false)
  | OutOfFuel => False
  end.
Proof.
  intros G. unfold find_reliable_path. fold G.
  pose proof (nx_shortest_path_spec G start end_
                (build_graph_nonneg (towers s))) as Hspec.
  destruct (nx_shortest_path G start end_) as [p|e|]; [done| |done].
  destruct Hspec as [[-> Hnode]|(-> & Hs & Ht & Hno)]; done.
Qed.

(** Two nodes of the graph that no path joins: the search raises
    [NetworkXNoPath], the handler catches it, and the method returns
    [None]. *)
Lemma find_reliable_path_disconnected (s : CityGrid) (start end_ : Z) :
  has_node (build_graph (towers s)) start = true →
  has_node (build_graph (towers s)) end_ = true →
  (∀ p d, ¬ walk (build_graph (towers s)) start p end_ d) →
  find_reliable_path s start end_ = Ok None.
Proof.
  intros Hs He Hno.
  pose proof (find_reliable_path_spec s start end_) as Hspec.
  simpl in Hspec.
  destruct (find_reliable_path s start end_) as [[path|]|e|];
    [|done| |done].
  - destruct Hspec as (d & Hwalk & _). by destruct (Hno path d).
  - destruct Hspec as (_ & [Hn|Hn]); congruence.
Qed.

(** Every edge of the graph joins two distinct towers of the registry that
    are in range of each other, and weighs their squared distance. *)
Lemma build_graph_edge_inv (ts : list tower) (u v w : Z) :
  edge_weight (build_graph ts) u v = Some w →
  ∃ (i j : nat) (ti tj : tower),
    u = Z.of_nat i ∧ v = Z.of_nat j ∧ i ≠ j ∧
    ts !! i = Some ti ∧ ts !! j = Some tj ∧
    w = sq_dist ti tj ∧ in_reach ti tj.
Proof.
  intros Hw. destruct (build_graph_sound ts) as [Hedge _].
  destruct (Hedge u v w Hw)
    as [(t & o & Hne & [Hu Ht]%elem_of_enumerate &
         [Hv Ho]%elem_of_enumerate & -> & Hle)|
        (t & o & Hne & [Hv Ht]%elem_of_enumerate &
         [Hu Ho]%elem_of_enumerate & -> & Hle)].
  - exists (Z.to_nat u), (Z.to_nat v), t, o.
    split_and!; try done; try lia. by left.
  - exists (Z.to_nat u), (Z.to_nat v), o, t.
    split_and!; try done; try lia.
    + apply sq_dist_sym.
    + right. by rewrite sq_dist_sym.
Qed.

Lemma build_graph_in_reach (ts : list tower) (i j : nat) (ti tj : tower) :
  i ≠ j → ts !! i = Some ti → ts !! j = Some tj → in_reach ti tj →
  edge_weight (build_graph ts) (Z.of_nat i) (Z.of_nat j)
    = Some (sq_dist ti tj) ∧
  edge_weight (build_graph ts) (Z.of_nat j) (Z.of_nat i)
    = Some (sq_dist ti tj).
Proof.
  intros Hij Hi%lookup_enumerate Hj%lookup_enumerate Hreach.
  split.
  - apply (build_graph_edge ts _ _ ti tj); [lia|done..].
  - apply (build_graph_edge ts _ _ tj ti); [lia|done..|].
    rewrite (sq_dist_sym tj ti). unfold in_reach in Hreach. tauto.
Qed.

Section chain.
Variable ts : list tower.
Variables a b c : nat.
Variables ta tb tc : tower.
Hypothesis Hthree : length ts = 3%nat.
Hypothesis Hab : a ≠ b.
Hypothesis Hbc : b ≠ c.
Hypothesis Hac : a ≠ c.
Hypothesis Ha : ts !! a = Some ta.
Hypothesis Hb : ts !! b = Some tb.
Hypothesis Hc : ts !! c = Some tc.
Hypothesis Hfar : ¬ in_reach ta tc.

(** With the two ends out of reach of each other, the only way into the
    far end is from the middle tower, and a path without repetition from
    one end to the other is the chain itself. *)
Lemma chain_index (i : nat) (ti : tower) :
  ts !! i = Some ti →
  (i = a ∧ ti = ta) ∨ (i = b ∧ ti = tb) ∨ (i = c ∧ ti = tc).
Proof.
  intros Hi. pose proof (lookup_lt_Some _ _ _ Hi) as Hlt.
  pose proof (lookup_lt_Some _ _ _ Ha). pose proof (lookup_lt_Some _ _ _ Hb).
  pose proof (lookup_lt_Some _ _ _ Hc).
  assert (i = a ∨ i = b ∨ i = c) as [-> | [-> | ->]] by lia;
    [left|right; left|right; right]; split; congruence.
Qed.

Lemma chain_into_far_end (v w : Z) :
  edge_weight (build_graph ts) v (Z.of_nat c) = Some w →
  v = Z.of_nat b ∧ w = sq_dist tb tc.
Proof.
  intros (i & j & ti & tj & -> & Hj & Hij & Hi & Htj & -> & Hreach)
    %build_graph_edge_inv.
  apply Nat2Z.inj in Hj as <-. rewrite Hc in Htj. injection Htj as <-.
  destruct (chain_index i ti Hi) as [[-> ->] | [[-> ->] | [-> ->]]]; done.
Qed.

Lemma chain_into_middle (v w : Z) :
  edge_weight (build_graph ts) v (Z.of_nat b) = Some w →
  (v = Z.of_nat a ∧ w = sq_dist ta tb) ∨ v = Z.of_nat c.
Proof.
  intros (i & j & ti & tj & -> & Hj & Hij & Hi & Htj & -> & Hreach)
    %build_graph_edge_inv.
  apply Nat2Z.inj in Hj as <-. rewrite Hb in Htj. injection Htj as <-.
  destruct (chain_index i ti Hi) as [[-> ->] | [[-> ->] | [-> ->]]];
    [by left|done|by right].
Qed.

Lemma chain_only_path (p : list Z) (d : Z) :
  walk (build_graph ts) (Z.of_nat a) p (Z.of_nat c) d → NoDup p →
  p = [Z.of_nat a; Z.of_nat b; Z.of_nat c] ∧
  d = sq_dist ta tb + sq_dist tb tc.
Proof.
  intros Hwalk Hnd.
  inversion Hwalk as [|p1 v x d1 w1 Hwalk1 Hw1]; subst; [lia|].
  apply chain_into_far_end in Hw1 as [-> ->].
  inversion Hwalk1 as [|p2 v x d2 w2 Hwalk2 Hw2]; subst; [lia|].
  apply chain_into_middle in Hw2 as [[-> ->]| ->].
  - inversion Hwalk2 as [|p3 v x d3 w3 Hwalk3 Hw3]; subst; [done|].
    exfalso. apply walk_head in Hwalk3 as [p' ->].
    rewrite <- !app_assoc in Hnd. simpl in Hnd.
    apply NoDup_cons_1_1 in Hnd. apply Hnd.
    rewrite !elem_of_app, !elem_of_cons. tauto.
  - exfalso. apply walk_last in Hwalk2 as [p' ->].
    apply NoDup_app in Hnd as (_ & Hdisj & _).
    apply (Hdisj (Z.of_nat c)); [|by left].
    rewrite !elem_of_app, !elem_of_cons. tauto.
Qed.

Lemma chain_walk :
  in_reach ta tb → in_reach tb tc →
  walk (build_graph ts) (Z.of_nat a)
    [Z.of_nat a; Z.of_nat b; Z.of_nat c] (Z.of_nat c)
    (sq_dist ta tb + sq_dist tb tc).
Proof.
  intros Hreach1 Hreach2.
  apply (build_graph_in_reach ts a b ta tb Hab Ha Hb) in Hreach1 as [Hab1 _].
  apply (build_graph_in_reach ts b c tb tc Hbc Hb Hc) in Hreach2 as [Hbc1 _].
  apply (walk_edge _ _ [Z.of_nat a; Z.of_nat b] (Z.of_nat b)); [|done].
  rewrite <- (Z.add_0_l (sq_dist ta tb)).
  apply (walk_edge _ _ [Z.of_nat a] (Z.of_nat a)); [|done].
  constructor.
Qed.

Lemma chain_path (s : CityGrid) :
  towers s = ts → in_reach ta tb → in_reach tb tc →
  find_reliable_path s (Z.of_nat a) (Z.of_nat c)
    = Ok (Some [Z.of_nat a; Z.of_nat b; Z.of_nat c]).
Proof.
  intros Hts Hreach1 Hreach2.
  pose proof (chain_walk Hreach1 Hreach2) as Hchain.
  pose proof (find_reliable_path_spec s (Z.of_nat a) (Z.of_nat c)) as Hspec.
  simpl in Hspec. rewrite Hts in Hspec.
  apply (build_graph_in_reach ts a b ta tb Hab Ha Hb) in Hreach1 as [Hab1 _].
  apply (build_graph_in_reach ts b c tb tc Hbc Hb Hc) in Hreach2 as [_ Hcb].
  destruct (find_reliable_path s (Z.of_nat a) (Z.of_nat c))
    as [[path|]|e|]; [| | |done].
  - destruct Hspec as (d & Hwalk & Hnd & _).
    by destruct (chain_only_path path d Hwalk Hnd) as [-> _].
  - destruct Hspec as (_ & _ & Hno). by destruct (Hno _ _ Hchain).
  - destruct Hspec as (_ & [Hnode|Hnode]).
    + by rewrite (edge_has_node _ _ _ _ Hab1) in Hnode.
    + by rewrite (edge_has_node _ _ _ _ Hcb) in Hnode.
Qed.
End chain.

(** C9.  The edge weights of the graph are squared distances and never
    negative.  A path that [find_reliable_path] returns leads from [start]
    to [end_] along edges of the graph and no path between them weighs
    less; whenever both are nodes of the graph and some path joins them, a
    path is returned.  For a registry of three towers A, B, C (at any
    three indices) with A-B and B-C in range and A-C out of the range of
    both, the path from A to C is [[A, B, C]], of weight
    dist(A,B) + dist(B,C), and the graph has no edge A-C. *)
Theorem find_reliable_path_shortest (s : CityGrid) :
  let G := build_graph (towers s) in
  (∀ u v w, edge_weight G u v = Some w → 0 ≤ w) ∧
  (∀ start end_ path,
     find_reliable_path s start end_ = Ok (Some path) →
     ∃ d, walk G start path end_ d ∧
          ∀ p' d', walk G start p' end_ d' → d ≤ d') ∧
  (∀ start end_ p d,
     has_node G start = true → has_node G end_ = true →
     walk G start p end_ d →
     ∃ path, find_reliable_path s start end_ = Ok (Some path)) ∧
  (∀ (a b c : nat) (ta tb tc : tower),
     length (towers s) = 3%nat → a ≠ b → b ≠ c → a ≠ c →
     towers s !! a = Some ta → towers s !! b = Some tb →
     towers s !! c = Some tc →
     in_reach ta tb → in_reach tb tc → ¬ in_reach ta tc →
     find_reliable_path s (Z.of_nat a) (Z.of_nat c)
       = Ok (Some [Z.of_nat a; Z.of_nat b; Z.of_nat c]) ∧
     walk G (Z.of_nat a) [Z.of_nat a; Z.of_nat b; Z.of_nat c] (Z.of_nat c)
       (sq_dist ta tb + sq_dist tb tc) ∧
     edge_weight G (Z.of_nat a) (Z.of_nat c) = None).
Proof.
  intros G. split_and!.
  - apply build_graph_nonneg.
  - intros start end_ path Hpath.
    pose proof (find_reliable_path_spec s start end_) as Hspec.
    rewrite Hpath in Hspec. destruct Hspec as (d & Hwalk & _ & Hmin).
    by exists d.
  - intros start end_ p d Hs He Hwalk.
    pose proof (find_reliable_path_spec s start end_) as Hspec.
    destruct (find_reliable_path s start end_) as [[path|]|e|];
      [by exists path| | |done].
    + destruct Hspec as (_ & _ & Hno). by destruct (Hno _ _ Hwalk).
    + unfold G in *. destruct Hspec as (_ & [Hn|Hn]); congruence.
  - intros a b c ta tb tc Hlen Hab Hbc Hac Ha Hb Hc Hr1 Hr2 Hfar.
    split_and!.
    + by apply (chain_path (towers s) a b c ta tb tc).
    + by apply chain_walk.
    + destruct (edge_weight G (Z.of_nat a) (Z.of_nat c)) as [w|] eqn:Hw;
        [|done].
      by apply (chain_into_far_end (towers s) a b c ta tb tc) in Hw
        as [?%Nat2Z.inj _].
Qed.

Lemma find_reliable_path_shortest_witness :
  find_reliable_path (open_city 10 10 [(3, 4, 2); (5, 5, 3); (7, 5, 2)]) 0 2
    = Ok (Some [0; 1; 2]).
Proof.
  destruct (find_reliable_path_shortest
              (open_city 10 10 [(3, 4, 2); (5, 5, 3); (7, 5, 2)]))
    as (_ & _ & _ & Hchain).
  destruct (Hchain 0%nat 1%nat 2%nat (3, 4, 2) (5, 5, 3) (7, 5, 2))
    as (Hpath & _); try done.
  - right. vm_compute. discriminate.
  - left. vm_compute. discriminate.
  - intros [H|H]; vm_compute in H; by apply H.
Defined.

(** * Further properties of the code *)

(** ** The objects a program can hold *)

Lemma on_passable_same_grid (s s' : CityGrid) (t : tower) :
  n s' = n s → m s' = m s → grid s' = grid s →
  on_passable s t → on_passable s' t.
Proof.
  intros Hn Hm Hg. unfold on_passable, grid_at. by rewrite Hn, Hm, Hg.
Qed.

Lemma grows_on_passable (s s' : CityGrid) :
  grows s s' →
  ∃ added, towers s' = towers s ++ added ∧ Forall (on_passable s) added.
Proof.
  induction 1 as [s|s s' x y r Hc Hu _ (added & Heq & Hall)].
  - exists []. by rewrite app_nil_r.
  - exists ((x, y, r) :: added). simpl in Heq.
    rewrite Heq, <- app_assoc. split; [done|].
    apply Forall_cons. split.
    + apply elem_of_cells in Hc as [Hx Hy].
      apply uncovered_spec in Hu as [Hg _].
      unfold on_passable. simpl. split_and!; (lia || done).
    + eapply Forall_impl; [done|]. intros t. by apply on_passable_same_grid.
Qed.

Lemma grows_well_placed (s s' : CityGrid) :
  grows s s' → well_placed s → well_placed s'.
Proof.
  intros Hg Hs. destruct (grows_grid s s' Hg) as (Hn & Hm & Hgrid).
  destruct (grows_on_passable s s' Hg) as (added & Heq & Hall).
  unfold well_placed. rewrite Heq. apply Forall_app. split.
  - eapply Forall_impl; [done|]. intros t. by apply on_passable_same_grid.
  - eapply Forall_impl; [done|]. intros t. by apply on_passable_same_grid.
Qed.

Lemma place_tower_cases (s s' : CityGrid) (x y r : Z) :
  place_tower s x y r = Ok s' →
  s' = s ∨
  (s' = set_towers s (towers s ++ [(x, y, r)]) ∧ on_passable s (x, y, r)).
Proof.
  unfold place_tower, on_passable. simpl.
  destruct (Z.leb_spec 0 x), (Z.ltb_spec x (n s)),
    (Z.leb_spec 0 y), (Z.ltb_spec y (m s)); simpl;
    try (intros [= <-]; by left).
  destruct (grid_at s x y) as [[]| |]; simpl; try done.
  - intros [= <-]. right. split_and!; (lia || done).
  - intros [= <-]. by left.
Qed.

Lemma init_shaped (rows cols : Z) (p : option Q) (u : Z → Z → Q)
    (s : CityGrid) :
  init rows cols p u = Ok s →
  shaped s ∧ towers s = [] ∧ n s = rows ∧ m s = cols ∧
  ∀ x y, 0 ≤ x < rows → 0 ≤ y < cols →
    grid_at s x y
      = Ok (negb (Qle_bool (u x y)
                    (default default_obstructed_probability p))).
Proof.
  unfold init.
  destruct (Z.ltb_spec rows 0), (Z.ltb_spec cols 0); simpl; try done.
  intros [= <-]. simpl. split_and!; try done.
  - unfold shaped, py_range. simpl. split_and!; try done.
    + by rewrite length_fmap, length_seqZ.
    + apply Forall_fmap, Forall_forall. intros x _. simpl.
      by rewrite length_fmap, length_seqZ.
  - intros x y Hx Hy. unfold grid_at. simpl.
    erewrite py_index_lookup;
      [|lia|by apply (lookup_fmap_py_range _ rows x)].
    simpl. apply py_index_lookup; [lia|].
    by apply (lookup_fmap_py_range
                (λ y, negb (Qle_bool (u x y)
                              (default default_obstructed_probability p)))
                cols y).
Qed.

(** X1.  Whatever sequence of [place_tower] and
    [optimize_tower_placement] calls follows the constructor, the grid
    keeps the shape [n] by [m], every tower of the registry stands inside
    the grid on a passable cell, and [place_tower] does not raise. *)
Theorem reachable_invariant (s : CityGrid) :
  reachable s →
  shaped s ∧ well_placed s ∧
  ∀ x y r, ∃ s', place_tower s x y r = Ok s'.
Proof.
  intros Hreach.
  assert (Hinv : shaped s ∧ well_placed s).
  { induction Hreach as [rows cols p u s Hinit|s s' x y r _ [Hs Hw] Hplace|
                         s budget tys _ [Hs Hw]].
    - apply init_shaped in Hinit as (Hs & Ht & _).
      split; [done|]. unfold well_placed. rewrite Ht. constructor.
    - apply place_tower_cases in Hplace as [->|[-> Hon]]; [done|].
      split; [done|]. unfold well_placed. simpl.
      apply Forall_app. split; [done|].
      apply Forall_cons. split; [done|constructor].
    - pose proof (optimize_types_grows (loop_bound s) budget tys s None)
        as Hg.
      split; [by eapply grows_shaped|by eapply grows_well_placed]. }
  destruct Hinv as [Hs Hw]. split_and!; [done..|].
  intros x y r.
  destruct (decide (0 ≤ x < n s ∧ 0 ≤ y < m s ∧ grid_at s x y = Ok true))
    as [(Hx & Hy & Hg)|Hno].
  - eexists. by apply place_tower_inside.
  - eexists. by apply place_tower_rejected.
Qed.

Lemma reachable_invariant_witness :
  well_placed
    (optimize_tower_placement (open_city 2 2 [(1, 1, 0)]) 3
       [{| range := 1; coverage := 1; cost := 2 |}]).1.
Proof.
  apply reachable_invariant. apply reach_optimize.
  apply (reach_place (open_city 2 2 []) _ 1 1 0); [|reflexivity].
  apply (reach_init 2 2 (Some (-1 # 1)) (λ _ _, 0%Q)). reflexivity.
Defined.

(** ** What the optimiser leaves as it is *)

Lemma coverageCount_app (ts added : list tower) (x y : Z) :
  coverageCount ts x y ≤ coverageCount (ts ++ added) x y.
Proof. unfold coverageCount. rewrite filter_app, length_app. lia. Qed.

Lemma while_budget_ranges (fuel : nat) (t : tower_type) (s : CityGrid)
    (dist : option Z) (remaining : Z) :
  ∃ added,
    towers (while_budget fuel t s dist remaining).1.1 = towers s ++ added ∧
    Forall (λ a : tower, a.2 = range t) added.
Proof.
  revert s dist remaining.
  assert (Hnone : ∀ s : CityGrid,
    ∃ added, towers s = towers s ++ added ∧
             Forall (λ a : tower, a.2 = range t) added).
  { intros s. exists []. by rewrite app_nil_r. }
  induction fuel as [|fuel IH]; intros s dist remaining; simpl;
    [by apply Hnone|].
  destruct (cost t <=? remaining); [|by apply Hnone].
  destruct (scan s t _) as [loc| |] eqn:Hscan; [|by apply Hnone..].
  destruct (best_tower loc) as [[x y]|] eqn:Hbest; [|by apply Hnone].
  apply scan_sound in Hscan; [|by intros c [=]].
  destruct (Hscan _ Hbest) as [Hc Hu].
  rewrite (place_tower_open s x y (range t) Hc Hu).
  destruct (IH (set_towers s (towers s ++ [(x, y, range t)])) (distance loc)
              (remaining - cost t)) as (added & Heq & Hall).
  exists ((x, y, range t) :: added). simpl in Heq.
  rewrite Heq, <- app_assoc. split; [done|]. by constructor.
Qed.

Lemma optimize_types_ranges (fuel : nat) (budget : Z)
    (tys : list tower_type) (s : CityGrid) (dist : option Z) :
  ∃ added,
    towers (optimize_types fuel budget tys s dist).1.1 = towers s ++ added ∧
    Forall (λ a : tower, ∃ t, t ∈ tys ∧ a.2 = range t) added.
Proof.
  revert s dist. induction tys as [|t tys IH]; intros s dist; simpl.
  - exists []. by rewrite app_nil_r.
  - destruct (while_budget_ranges fuel t s dist budget)
      as (added & Heq & Hall).
    assert (Hhere : Forall (λ a : tower, ∃ t', t' ∈ t :: tys ∧ a.2 = range t')
                      added).
    { eapply Forall_impl; [done|]. intros a Ha. exists t. split; [left|done]. }
    destruct (while_budget fuel t s dist budget) as [[s' d'] c].
    simpl in Heq.
    destruct c; try (by exists added).
    destruct (IH s' d') as (later & Heq' & Hall').
    exists (added ++ later). rewrite Heq', Heq, <- app_assoc.
    split; [done|]. apply Forall_app. split; [done|].
    eapply Forall_impl; [done|]. intros a (t' & Ht' & Ha).
    exists t'. split; [by right|done].
Qed.

(** X2.  [optimize_tower_placement] changes nothing but the registry, and
    the registry only at its end: the grid and its dimensions stay, the
    towers that were there keep their indices, every tower added has the
    range of one of the given types and stands inside the grid on a
    passable cell, and no cell is covered by fewer towers than before. *)
Theorem optimize_keeps (s : CityGrid) (budget : Z) (tys : list tower_type) :
  let s' := (optimize_tower_placement s budget tys).1 in
  n s' = n s ∧ m s' = m s ∧ grid s' = grid s ∧
  (∃ added,
     towers s' = towers s ++ added ∧
     Forall (on_passable s) added ∧
     Forall (λ a : tower, ∃ t, t ∈ tys ∧ a.2 = range t) added) ∧
  (∀ i t, towers s !! i = Some t → towers s' !! i = Some t) ∧
  (∀ x y, coverageCount (towers s) x y ≤ coverageCount (towers s') x y).
Proof.
  intros s'.
  pose proof (optimize_types_grows (loop_bound s) budget tys s None) as Hg.
  destruct (grows_grid _ _ Hg) as (Hn & Hm & Hgrid).
  destruct (grows_on_passable _ _ Hg) as (added & Heq & Hon).
  destruct (optimize_types_ranges (loop_bound s) budget tys s None)
    as (added' & Heq' & Hranges).
  assert (added' = added) as ->.
  { rewrite Heq in Heq'. by apply app_inv_head in Heq'. }
  unfold s', optimize_tower_placement. simpl.
  split_and!; try done.
  - by exists added.
  - intros i t Hi. rewrite Heq. by apply lookup_app_l_Some.
  - intros x y. rewrite Heq. apply coverageCount_app.
Qed.

Lemma optimize_keeps_witness :
  towers (optimize_tower_placement (open_city 2 2 [(0, 0, 0)]) 1
            [{| range := 1; coverage := 1; cost := 1 |}]).1 !! 0%nat
  = Some (0, 0, 0).
Proof.
  destruct (optimize_keeps (open_city 2 2 [(0, 0, 0)]) 1
              [{| range := 1; coverage := 1; cost := 1 |}])
    as (_ & _ & _ & _ & Hkeep & _).
  by apply Hkeep.
Defined.

(** ** When the optimiser builds nothing *)

Lemma scan_initial (s : CityGrid) (t : tower_type) (dist : option Z) :
  shaped s →
  match scan s t {| best_tower := None; best_coverage := 0;
                    best_distance := 0; distance := dist |} with
  | Ok loc =>
      best_tower loc = (if 0 <? coverage t then first_uncovered s else None) ∧
      (towers s = [] → distance loc = dist)
  | Raise e =>
      e = UnboundLocalError ∧ 0 < coverage t ∧ towers s = [] ∧
      dist = None ∧ first_uncovered s ≠ None
  | OutOfFuel => False
  end.
Proof.
  intros Hs. rewrite scan_cells.
  pose proof (scan_cells_spec s t Hs (cells s)
    {| best_tower := None; best_coverage := 0; best_distance := 0;
       distance := dist |}) as Hspec.
  unfold scan_raises, scan_best, first_uncovered in *. simpl in Hspec.
  destruct (for_each (cells s) _ _) as [loc|e|]; [| |by apply Hspec].
  - destruct Hspec as (_ & Hbest & Hdist); [done|]. split; [|done].
    rewrite Hbest. by repeat case_match.
  - destruct Hspec as (-> & Hcov & Hhead & Hnil & Hdist); done.
Qed.

Lemma while_budget_inert (fuel : nat) (t : tower_type) (s : CityGrid)
    (dist : option Z) (budget : Z) :
  shaped s → inert budget t →
  ∃ dist', while_budget (S fuel) t s dist budget = (s, dist', Returned) ∧
           (towers s = [] → dist' = dist).
Proof.
  intros Hs Hinert. simpl.
  destruct (Z.leb_spec (cost t) budget) as [Hle|]; [|by exists dist].
  destruct Hinert as [?|Hcov]; [lia|].
  pose proof (scan_initial s t dist Hs) as Hspec.
  destruct (scan s t _) as [loc|e|]; [| |done].
  - destruct Hspec as [Hbest Hdist]. rewrite Hbest.
    destruct (Z.ltb_spec 0 (coverage t)); [lia|]. by exists (distance loc).
  - destruct Hspec as (_ & ? & _). lia.
Qed.

Lemma optimize_types_inert (fuel : nat) (budget : Z) (tys : list tower_type)
    (s : CityGrid) (dist : option Z) :
  shaped s → Forall (inert budget) tys →
  ∃ dist', optimize_types (S fuel) budget tys s dist = (s, dist', Returned) ∧
           (towers s = [] → dist' = dist).
Proof.
  intros Hs. revert dist.
  induction tys as [|t tys IH]; intros dist Hall.
  - by exists dist.
  - apply Forall_cons in Hall as [Ht Hall].
    destruct (while_budget_inert fuel t s dist budget Hs Ht)
      as (d1 & Hwhile & Hd1).
    rewrite optimize_types_cons, Hwhile.
    destruct (IH d1 Hall) as (d2 & Hrest & Hd2).
    exists d2. split; [done|]. intros Hnil. by rewrite Hd2, Hd1.
Qed.

(** X3.  When no tower type can build, because each is dearer than the
    whole budget or has a coverage score that is not positive, or because
    the list of types is empty, the call returns and leaves the object as
    it was. *)
Theorem optimize_inert_types (s : CityGrid) (budget : Z)
    (tys : list tower_type) :
  shaped s → Forall (inert budget) tys →
  optimize_tower_placement s budget tys = (s, Returned).
Proof.
  intros Hs Hall. unfold optimize_tower_placement, loop_bound.
  by destruct (optimize_types_inert (length (cells s)) budget tys s None
                 Hs Hall) as (d & -> & _).
Qed.

Lemma optimize_inert_types_witness :
  optimize_tower_placement (open_city 2 2 []) 100
    [{| range := 1; coverage := 5; cost := 101 |};
     {| range := 1; coverage := 0; cost := 1 |}]
  = (open_city 2 2 [], Returned).
Proof.
  apply optimize_inert_types.
  - repeat split; simpl; try lia. repeat constructor.
  - apply Forall_cons. split; [left; simpl; lia|].
    apply Forall_cons. split; [right; simpl; lia|constructor].
Defined.

Lemma while_budget_raises_on_empty (fuel : nat) (t : tower_type)
    (s : CityGrid) (budget : Z) :
  shaped s → towers s = [] → first_uncovered s ≠ None →
  cost t ≤ budget → 0 < coverage t →
  while_budget (S fuel) t s None budget
    = (s, None, Raised UnboundLocalError).
Proof.
  intros Hs Hnil Hcell Hcost Hcov. simpl.
  destruct (Z.leb_spec (cost t) budget); [|lia].
  pose proof (scan_spec s t None Hs) as Hspec.
  destruct (scan s t _) as [loc|e|]; [| |done].
  - destruct Hspec as [_ Hnone]. exfalso. by apply Hcell, Hnone.
  - by destruct Hspec as (-> & _).
Qed.

(** X4.  On an empty registry the first tower type that could build makes
    the call raise [UnboundLocalError]: as soon as the grid has a passable
    cell, the budget covers the type's cost and its coverage score is
    positive, line 92 reads [distance], which only the loop over the
    towers binds.  Nothing is built, whatever types follow. *)
Theorem optimize_empty_registry (s : CityGrid) (budget : Z)
    (pre post : list tower_type) (t : tower_type) :
  shaped s → towers s = [] → first_uncovered s ≠ None →
  Forall (inert budget) pre → cost t ≤ budget → 0 < coverage t →
  optimize_tower_placement s budget (pre ++ t :: post)
    = (s, Raised UnboundLocalError).
Proof.
  intros Hs Hnil Hcell Hpre Hcost Hcov.
  unfold optimize_tower_placement, loop_bound.
  destruct (optimize_types_inert (length (cells s)) budget pre s None
              Hs Hpre) as (d & Hrun & Hd).
  rewrite optimize_types_app, Hrun, optimize_types_cons.
  rewrite (Hd Hnil).
  by rewrite while_budget_raises_on_empty.
Qed.

Lemma optimize_empty_registry_witness :
  optimize_tower_placement (open_city 2 2 []) 5
    [{| range := 1; coverage := 0; cost := 1 |};
     {| range := 1; coverage := 3; cost := 5 |}]
  = (open_city 2 2 [], Raised UnboundLocalError).
Proof.
  apply (optimize_empty_registry (open_city 2 2 []) 5
           [{| range := 1; coverage := 0; cost := 1 |}] []
           {| range := 1; coverage := 3; cost := 5 |}).
  - repeat split; simpl; try lia. repeat constructor.
  - reflexivity.
  - vm_compute. discriminate.
  - apply Forall_cons. split; [right; simpl; lia|constructor].
  - simpl. lia.
  - simpl. lia.
Defined.

(** ** When the loop of a tower type stops *)

Lemma place_first_uncovered_completion (fuel : nat) (t : tower_type)
    (s : CityGrid) (remaining : Z) :
  (place_first_uncovered fuel t s remaining).2 = Returned ∨
  (place_first_uncovered fuel t s remaining).2 = FuelSpent.
Proof.
  revert s remaining. induction fuel as [|fuel IH]; intros s remaining;
    simpl; [by right|].
  destruct (cost t <=? remaining); [|by left].
  destruct (if 0 <? coverage t then first_uncovered s else None)
    as [[x y]|]; [apply IH|by left].
Qed.

Lemma place_first_uncovered_stops (fuel : nat) (t : tower_type)
    (s s' : CityGrid) (remaining : Z) :
  0 < coverage t →
  place_first_uncovered fuel t s remaining = (s', Returned) →
  ∃ added,
    towers s' = towers s ++ added ∧
    (remaining - Z.of_nat (length added) * cost t < cost t ∨
     first_uncovered s' = None).
Proof.
  intros Hcov. revert s remaining.
  induction fuel as [|fuel IH]; intros s remaining; simpl; [done|].
  destruct (Z.leb_spec (cost t) remaining) as [Hle|Hgt].
  - destruct (Z.ltb_spec 0 (coverage t)); [|lia].
    destruct (first_uncovered s) as [[x y]|] eqn:Hfirst.
    + intros (added & Heq & Hstop)%IH. simpl in Heq.
      exists ((x, y, range t) :: added). rewrite Heq, <- app_assoc.
      split; [done|]. simpl length.
      destruct Hstop as [Hstop|Hstop]; [left; lia|by right].
    + intros [= <-]. exists []. rewrite app_nil_r. split; [done|by right].
  - intros [= <-]. exists []. rewrite app_nil_r. split; [done|].
    left. simpl. lia.
Qed.

Lemma optimize_reference_one (fuel : nat) (budget : Z) (t : tower_type)
    (s : CityGrid) :
  optimize_reference fuel budget [t] s
    = place_first_uncovered fuel t s budget.
Proof.
  cbn [optimize_reference].
  by destruct (place_first_uncovered fuel t s budget) as [s1 []].
Qed.

(** X5.  On a grid of [n] rows of [m] cells and a registry that holds a
    tower, the loop of a single type with a positive coverage score returns
    normally, and it stops only when the budget left no longer covers the
    cost or every passable cell is covered; a type that costs nothing
    therefore leaves no passable cell uncovered. *)
Theorem optimize_one_type_stops (s : CityGrid) (budget : Z)
    (t : tower_type) :
  shaped s → towers s ≠ [] → 0 < coverage t →
  let r := optimize_tower_placement s budget [t] in
  r.2 = Returned ∧
  ∃ added,
    towers r.1 = towers s ++ added ∧
    (budget - Z.of_nat (length added) * cost t < cost t ∨
     first_uncovered r.1 = None) ∧
    (cost t ≤ 0 → cost t ≤ budget → first_uncovered r.1 = None).
Proof.
  intros Hs Hts Hcov r.
  assert (Hr : r = place_first_uncovered (loop_bound s) t s budget).
  { pose proof (optimize_types_reference (loop_bound s) budget [t] s None
                  Hs Hts) as Href.
    unfold r, optimize_tower_placement. rewrite Href.
    apply optimize_reference_one. }
  assert (Hfuel : r.2 ≠ FuelSpent).
  { apply (optimize_types_ends (loop_bound s) budget [t] s None),
      open_cells_bound. }
  pose proof (place_first_uncovered_completion (loop_bound s) t s budget)
    as Hcompl.
  pose proof (λ s', place_first_uncovered_stops (loop_bound s) t s s'
                      budget Hcov) as Hstops.
  rewrite <- Hr in Hcompl, Hstops.
  destruct Hcompl as [Hret|?]; [|done].
  destruct r as [s1 c1]. simpl in *. subst c1. split; [done|].
  destruct (Hstops s1 eq_refl) as (added & Heq & Hstop).
  exists added. split_and!; [done..|].
  intros Hfree Hcost. destruct Hstop as [Hstop|Hstop]; [|done].
  exfalso. nia.
Qed.

Lemma optimize_one_type_stops_witness :
  (optimize_tower_placement (open_city 2 3 [(0, 0, 0)]) 0
     [{| range := 1; coverage := 1; cost := 0 |}]).2 = Returned.
Proof.
  apply (optimize_one_type_stops (open_city 2 3 [(0, 0, 0)]) 0
           {| range := 1; coverage := 1; cost := 0 |}).
  - repeat split; simpl; try lia. repeat constructor.
  - discriminate.
  - simpl. lia.
Defined.

(** ** The nodes of the graph *)

Lemma has_node_edge (ts : list tower) (u : Z) :
  has_node (build_graph ts) u = true →
  ∃ v w, edge_weight (build_graph ts) u v = Some w.
Proof. intros Hu. by destruct (build_graph_sound ts) as [_ Hnode]; auto. Qed.

Lemma build_graph_symmetric (ts : list tower) (u v : Z) :
  edge_weight (build_graph ts) u v = edge_weight (build_graph ts) v u.
Proof.
  assert (Hhalf : ∀ u v w, edge_weight (build_graph ts) u v = Some w →
                           edge_weight (build_graph ts) v u = Some w).
  { clear u v.
    intros u v w (i & j & ti & tj & -> & -> & Hij & Hi & Hj & -> & Hreach)
      %build_graph_edge_inv.
    by destruct (build_graph_in_reach ts i j ti tj Hij Hi Hj Hreach). }
  apply option_eq. intros w. split; apply Hhalf.
Qed.

(** X6.  The graph is undirected, and its nodes are exactly the towers that
    are in range of some other tower of the registry: a node is the index
    of such a tower, and nothing else is ever a node. *)
Theorem build_graph_nodes (ts : list tower) :
  (∀ u v, edge_weight (build_graph ts) u v
          = edge_weight (build_graph ts) v u) ∧
  (∀ u, has_node (build_graph ts) u = true ↔
        ∃ (i j : nat) (ti tj : tower),
          u = Z.of_nat i ∧ i ≠ j ∧
          ts !! i = Some ti ∧ ts !! j = Some tj ∧ in_reach ti tj).
Proof.
  split.
  - apply build_graph_symmetric.
  - intros u. split.
    + intros (v & w & Hw)%has_node_edge.
      apply build_graph_edge_inv in Hw
        as (i & j & ti & tj & -> & -> & Hij & Hi & Hj & -> & Hreach).
      by exists i, j, ti, tj.
    + intros (i & j & ti & tj & -> & Hij & Hi & Hj & Hreach).
      destruct (build_graph_in_reach ts i j ti tj Hij Hi Hj Hreach)
        as [Hedge _].
      by eapply edge_has_node.
Qed.

Lemma build_graph_nodes_witness :
  has_node (build_graph [(3, 4, 2); (5, 5, 3); (9, 9, 1)]) 0 = true.
Proof.
  destruct (build_graph_nodes [(3, 4, 2); (5, 5, 3); (9, 9, 1)])
    as [_ Hnodes].
  apply Hnodes. exists 0%nat, 1%nat, (3, 4, 2), (5, 5, 3).
  split_and!; try done. right. vm_compute. discriminate.
Defined.

(** ** How [find_reliable_path] ends *)

Lemma find_reliable_path_nodes (s : CityGrid) (start end_ : Z)
    (r : option (list Z)) :
  find_reliable_path s start end_ = Ok r →
  has_node (build_graph (towers s)) start = true ∧
  has_node (build_graph (towers s)) end_ = true.
Proof.
  unfold find_reliable_path, nx_shortest_path.
  destruct (has_node _ start), (has_node _ end_); done.
Qed.

(** X7.  A call of [find_reliable_path] ends in one of three ways, and the
    graph alone says which: it raises [NodeNotFound] exactly when one of
    the two indices is not a node of the graph, it returns [None] exactly
    when both are nodes and no path joins them, and it returns a path
    exactly when both are nodes and a path joins them.  It raises nothing
    else. *)
Theorem find_reliable_path_outcomes (s : CityGrid) (start end_ : Z) :
  let G := build_graph (towers s) in
  let joined := ∃ p d, walk G start p end_ d in
  (find_reliable_path s start end_ = Raise NodeNotFound ↔
     has_node G start = false ∨ has_node G end_ = false) ∧
  (find_reliable_path s start end_ = Ok None ↔
     has_node G start = true ∧ has_node G end_ = true ∧ ¬ joined) ∧
  ((∃ path, find_reliable_path s start end_ = Ok (Some path)) ↔
     has_node G start = true ∧ has_node G end_ = true ∧ joined) ∧
  (∀ e, find_reliable_path s start end_ = Raise e → e = NodeNotFound) ∧
  find_reliable_path s start end_ ≠ OutOfFuel.
Proof.
  intros G joined.
  pose proof (find_reliable_path_spec s start end_) as Hspec.
  pose proof (find_reliable_path_nodes s start end_) as Hnodes.
  fold G in Hspec, Hnodes. simpl in Hspec.
  destruct (find_reliable_path s start end_) as [[path|]|e|]; [| | |done].
  - destruct Hspec as (d & Hwalk & _).
    destruct (Hnodes _ eq_refl) as [Hs He].
    split_and!; try done.
    + split; [done|]. intros [?|?]; congruence.
    + split; [done|]. intros (_ & _ & Hno). destruct Hno. by exists path, d.
    + split; [|by eauto]. intros _. split_and!; [done..|]. by exists path, d.
  - destruct Hspec as (Hs & He & Hno).
    split_and!; try done.
    + split; [done|]. intros [?|?]; congruence.
    + split; [|done]. intros _. split_and!; [done..|].
      intros (p & d & Hwalk). by apply (Hno p d).
    + split; [by intros [? [=]]|].
      intros (_ & _ & p & d & Hwalk). by destruct (Hno p d).
  - destruct Hspec as [-> Hmiss].
    split_and!.
    + done.
    + split; [done|]. intros (Hs & He & _). destruct Hmiss; congruence.
    + split; [by intros [? [=]]|].
      intros (Hs & He & _). destruct Hmiss; congruence.
    + by intros e [= <-].
    + done.
Qed.

Lemma find_reliable_path_outcomes_witness :
  find_reliable_path
    (open_city 10 10 [(0, 0, 1); (0, 1, 1); (9, 9, 1); (9, 8, 1)]) 0 5
  = Raise NodeNotFound.
Proof.
  destruct (find_reliable_path_outcomes
              (open_city 10 10 [(0, 0, 1); (0, 1, 1); (9, 9, 1); (9, 8, 1)])
              0 5) as (Hraise & _).
  apply Hraise. right. vm_compute. reflexivity.
Defined.

(** ** The path that is returned *)

Lemma walk_nodes (G : Graph) (u v d : Z) (p : list Z) (x : Z) :
  walk G u p v d → x ∈ p → x = u ∨ ∃ y w, edge_weight G y x = Some w.
Proof.
  induction 1 as [|p v z d w _ IH Hw].
  - intros ->%list_elem_of_singleton. by left.
  - intros [Hx| ->%list_elem_of_singleton]%elem_of_app; [by auto|].
    right. by exists v, w.
Qed.

Lemma build_graph_node_index (ts : list tower) (u : Z) :
  has_node (build_graph ts) u = true → 0 ≤ u < Z.of_nat (length ts).
Proof.
  intros (v & w & Hw)%has_node_edge.
  apply build_graph_edge_inv in Hw
    as (i & j & ti & tj & -> & _ & _ & Hi%lookup_lt_Some & _). lia.
Qed.

(** X8.  A path that [find_reliable_path] returns starts with [start],
    ends with [end_], visits no tower twice, and holds only indices of
    towers of the registry, so that [self.towers[i]] is defined for each of
    them; it is never the empty list. *)
Theorem find_reliable_path_indices (s : CityGrid) (start end_ : Z)
    (path : list Z) :
  find_reliable_path s start end_ = Ok (Some path) →
  head path = Some start ∧ last path = Some end_ ∧ NoDup path ∧
  Forall (λ i, 0 ≤ i < Z.of_nat (length (towers s))) path ∧
  Forall (λ i, ∃ t, tower_at s i = Done t) path.
Proof.
  intros Hpath.
  pose proof (find_reliable_path_spec s start end_) as Hspec.
  simpl in Hspec. rewrite Hpath in Hspec.
  destruct Hspec as (d & Hwalk & Hnd & _).
  destruct (find_reliable_path_nodes _ _ _ _ Hpath) as [Hs _].
  assert (Hidx : Forall (λ i, 0 ≤ i < Z.of_nat (length (towers s))) path).
  { apply Forall_forall. intros x Hx.
    apply build_graph_node_index.
    destruct (walk_nodes _ _ _ _ _ x Hwalk Hx) as [->|(y & w & Hw)];
      [done|].
    apply (edge_has_node _ x y w).
    by rewrite (build_graph_symmetric (towers s) x y). }
  split_and!; try done.
  - by destruct (walk_head _ _ _ _ _ Hwalk) as [p' ->].
  - destruct (walk_last _ _ _ _ _ Hwalk) as [p0 ->]. apply last_snoc.
  - eapply Forall_impl; [done|]. intros i Hi. simpl in Hi.
    unfold tower_at. simpl.
    destruct (Z.ltb_spec i 0); [lia|].
    destruct (Z.leb_spec 0 i); [|lia].
    destruct (lookup_lt_is_Some_2 (towers s) (Z.to_nat i)) as [t Ht]; [lia|].
    rewrite Ht. by exists t.
Qed.

Lemma find_reliable_path_indices_witness :
  head [0; 1; 2] = Some 0.
Proof.
  apply (find_reliable_path_indices
           (open_city 10 10 [(3, 4, 2); (5, 5, 3); (7, 5, 2)]) 0 2 [0; 1; 2]).
  vm_compute. reflexivity.
Defined.

(** ** The query the other way round *)

Lemma walk_cons (G : Graph) (x u v d w : Z) (p : list Z) :
  edge_weight G x u = Some w → walk G u p v d →
  walk G x (x :: p) v (w + d).
Proof.
  intros Hx. induction 1 as [|p v z d w' _ IH Hw].
  - rewrite Z.add_0_r, <- (Z.add_0_l w).
    apply (walk_edge G x [x] x); [constructor|done].
  - rewrite Z.add_assoc.
    by apply (walk_edge G x (x :: p) v).
Qed.

Lemma walk_reverse (G : Graph) (u v d : Z) (p : list Z) :
  (∀ a b, edge_weight G a b = edge_weight G b a) →
  walk G u p v d → walk G v (reverse p) u d.
Proof.
  intros Hsym. induction 1 as [|p v z d w _ IH Hw].
  - constructor.
  - rewrite reverse_snoc, Z.add_comm.
    apply (walk_cons _ z v); [|done]. by rewrite Hsym.
Qed.

(** X9.  The search does not depend on the direction of the query: when
    [find_reliable_path] returns a path from [a] to [b], it also returns a
    path from [b] to [a], and the two have the same total weight. *)
Theorem find_reliable_path_reverse (s : CityGrid) (a b : Z) (p : list Z) :
  find_reliable_path s a b = Ok (Some p) →
  ∃ p' d,
    find_reliable_path s b a = Ok (Some p') ∧
    walk (build_graph (towers s)) a p b d ∧
    walk (build_graph (towers s)) b p' a d.
Proof.
  intros Hp.
  pose proof (build_graph_symmetric (towers s)) as Hsym.
  pose proof (find_reliable_path_spec s a b) as Hab.
  simpl in Hab. rewrite Hp in Hab. destruct Hab as (d & Hwalk & _ & Hmin).
  destruct (find_reliable_path_nodes _ _ _ _ Hp) as [Ha Hb].
  pose proof (walk_reverse _ _ _ _ _ Hsym Hwalk) as Hback.
  pose proof (find_reliable_path_spec s b a) as Hba. simpl in Hba.
  destruct (find_reliable_path s b a) as [[p'|]|e|]; [| | |done].
  - destruct Hba as (d' & Hwalk' & _ & Hmin').
    exists p', d. split_and!; [done..|].
    pose proof (Hmin' _ _ Hback).
    pose proof (Hmin _ _ (walk_reverse _ _ _ _ _ Hsym Hwalk')).
    by replace d with d' by lia.
  - destruct Hba as (_ & _ & Hno). by destruct (Hno _ _ Hback).
  - destruct Hba as (_ & [?|?]); congruence.
Qed.

Lemma find_reliable_path_reverse_witness :
  ∃ p' d,
    find_reliable_path (open_city 10 10 [(3, 4, 2); (5, 5, 3); (7, 5, 2)])
      2 0 = Ok (Some p') ∧
    walk (build_graph [(3, 4, 2); (5, 5, 3); (7, 5, 2)]) 0 [0; 1; 2] 2 d ∧
    walk (build_graph [(3, 4, 2); (5, 5, 3); (7, 5, 2)]) 2 p' 0 d.
Proof.
  apply (find_reliable_path_reverse
           (open_city 10 10 [(3, 4, 2); (5, 5, 3); (7, 5, 2)]) 0 2 [0; 1; 2]).
  vm_compute. reflexivity.
Defined.

(** ** Registries without a pair in range *)

(** X10.  When no two towers of the registry are in range of each other,
    the graph has no node and every call of [find_reliable_path] raises
    [NodeNotFound], whatever the two indices; this is so in particular for
    a registry of fewer than two towers. *)
Theorem find_reliable_path_no_pair (s : CityGrid) :
  ((∀ (i j : nat) (ti tj : tower),
      i ≠ j → towers s !! i = Some ti → towers s !! j = Some tj →
      ¬ in_reach ti tj) →
   ∀ start end_, find_reliable_path s start end_ = Raise NodeNotFound) ∧
  ((length (towers s) ≤ 1)%nat →
   ∀ start end_, find_reliable_path s start end_ = Raise NodeNotFound).
Proof.
  assert (Hfirst :
    (∀ (i j : nat) (ti tj : tower),
       i ≠ j → towers s !! i = Some ti → towers s !! j = Some tj →
       ¬ in_reach ti tj) →
    ∀ start end_, find_reliable_path s start end_ = Raise NodeNotFound).
  { intros Hfar start end_. apply find_reliable_path_isolated.
    intros v w (i & j & ti & tj & _ & _ & Hij & Hi & Hj & _ & Hreach)
      %build_graph_edge_inv.
    by apply (Hfar i j ti tj). }
  split; [done|].
  intros Hlen. apply Hfirst. intros i j ti tj Hij Hi%lookup_lt_Some
    Hj%lookup_lt_Some. lia.
Qed.

Lemma find_reliable_path_no_pair_witness :
  find_reliable_path (open_city 3 3 [(1, 1, 5)]) 0 0 = Raise NodeNotFound.
Proof.
  destruct (find_reliable_path_no_pair (open_city 3 3 [(1, 1, 5)]))
    as [_ Hfew].
  apply Hfew. simpl. lia.
Defined.

(** ** A grid with nothing left to cover *)

Lemma while_budget_no_open_cell (fuel : nat) (t : tower_type) (s : CityGrid)
    (dist : option Z) (remaining : Z) :
  shaped s → first_uncovered s = None →
  ∃ d, while_budget (S fuel) t s dist remaining = (s, d, Returned).
Proof.
  intros Hs Hnone. simpl.
  destruct (cost t <=? remaining); [|by eexists].
  pose proof (scan_spec s t dist Hs) as Hspec.
  destruct (scan s t _) as [loc|e|]; [| |done].
  - destruct Hspec as [Hbest _]. rewrite Hbest, Hnone.
    destruct (0 <? coverage t); by eexists.
  - by destruct Hspec as (_ & _ & _ & _ & Hsome).
Qed.

Lemma optimize_types_no_open_cell (fuel : nat) (budget : Z)
    (tys : list tower_type) (s : CityGrid) (dist : option Z) :
  shaped s → first_uncovered s = None →
  ∃ d, optimize_types (S fuel) budget tys s dist = (s, d, Returned).
Proof.
  intros Hs Hnone. revert dist.
  induction tys as [|t tys IH]; intros dist; [by eexists|].
  rewrite optimize_types_cons.
  destruct (while_budget_no_open_cell fuel t s dist budget Hs Hnone)
    as [d ->].
  apply IH.
Qed.

(** X11.  When the grid has no passable cell that is still uncovered, and
    so also when it has no passable cell at all, the optimiser builds
    nothing, whatever the budget and the types: the call returns and the
    object is as it was. *)
Theorem optimize_nothing_open (s : CityGrid) (budget : Z)
    (tys : list tower_type) :
  shaped s → first_uncovered s = None →
  optimize_tower_placement s budget tys = (s, Returned).
Proof.
  intros Hs Hnone. unfold optimize_tower_placement, loop_bound.
  destruct (optimize_types_no_open_cell (length (cells s)) budget tys s
              None Hs Hnone) as [d Hrun].
  by rewrite Hrun.
Qed.

Lemma optimize_nothing_open_witness :
  optimize_tower_placement (open_city 2 2 [(0, 0, 2)]) 10
    [{| range := 1; coverage := 1; cost := 1 |}]
  = (open_city 2 2 [(0, 0, 2)], Returned).
Proof.
  apply optimize_nothing_open; [|reflexivity].
  repeat split; simpl; try lia. repeat constructor.
Defined.

(** ** The constructor at the ends of the probability scale *)

Lemma first_uncovered_none (s : CityGrid) :
  (∀ c, c ∈ cells s → uncovered s c = false) → first_uncovered s = None.
Proof.
  unfold first_uncovered. induction (cells s) as [|c cs IH]; intros Hall;
    [done|].
  rewrite filter_cons, decide_False.
  - apply IH. intros c' Hc'. apply Hall. by right.
  - rewrite (Hall c) by left. done.
Qed.

(** X12.  The constructor raises [ValueError] exactly when a dimension is
    negative.  With draws in [[0, 1)], an obstruction probability of 1 or
    more leaves no passable cell, so that [place_tower] and the optimiser
    never build anything, and a negative probability leaves every cell
    passable. *)
Theorem init_extremes (rows cols : Z) (p : Q) (u : Z → Z → Q) :
  (∀ x y, (0 <= u x y)%Q ∧ (u x y < 1)%Q) →
  (init rows cols (Some p) u = Raise ValueError ↔ rows < 0 ∨ cols < 0) ∧
  ∀ s, init rows cols (Some p) u = Ok s →
    ((1 <= p)%Q →
       (∀ x y r, place_tower s x y r = Ok s) ∧
       (∀ budget tys, optimize_tower_placement s budget tys = (s, Returned)))
    ∧
    ((p < 0)%Q →
       ∀ x y, 0 ≤ x < rows → 0 ≤ y < cols → grid_at s x y = Ok true).
Proof.
  intros Hdraw. split.
  - unfold init.
    destruct (Z.ltb_spec rows 0), (Z.ltb_spec cols 0); simpl;
      (split; [try done; intros _; lia|try done; lia]).
  - intros s Hinit.
    apply init_shaped in Hinit as (Hs & Hts & Hn & Hm & Hcell).
    simpl in Hcell. split.
    + intros Hone.
      assert (Hshut : ∀ x y, 0 ≤ x < n s → 0 ≤ y < m s →
                             grid_at s x y = Ok false).
      { intros x y Hx Hy. rewrite Hcell by lia. f_equal.
        apply negb_false_iff, Qle_bool_iff.
        destruct (Hdraw x y) as [_ Hlt].
        apply Qlt_le_weak. by eapply Qlt_le_trans. }
      split.
      * intros x y r. apply place_tower_rejected; [done|].
        intros (Hx & Hy & Hg). by rewrite Hshut in Hg.
      * intros budget tys. unfold optimize_tower_placement, loop_bound.
        destruct (optimize_types_no_open_cell (length (cells s)) budget tys
                    s None Hs) as [d Hrun]; [|by rewrite Hrun].
        apply first_uncovered_none. intros [x y] [Hx Hy]%elem_of_cells.
        unfold uncovered. simpl. by rewrite Hshut.
    + intros Hneg x y Hx Hy. rewrite Hcell by done. f_equal.
      apply negb_true_iff, not_true_iff_false. intros Hle%Qle_bool_iff.
      destruct (Hdraw x y) as [Hge _].
      apply (Qlt_irrefl 0). eapply Qle_lt_trans; [|done].
      by eapply Qle_trans.
Qed.

Lemma init_extremes_witness :
  place_tower
    {| n := 2; m := 2; grid := [[false; false]; [false; false]];
       towers := [] |} 0 0 1
  = Ok {| n := 2; m := 2; grid := [[false; false]; [false; false]];
          towers := [] |}.
Proof.
  destruct (init_extremes 2 2 (1 # 1) (λ _ _, 1 # 2)) as [_ Hs].
  - intros x y. split; [by apply Qle_bool_iff|reflexivity].
  - destruct (Hs _ eq_refl) as [[Hshut _] _]; [by apply Qle_bool_iff|].
    apply Hshut.
Defined.

(** ** The drawing methods *)

Lemma zeros_shaped (s : CityGrid) :
  shaped s →
  zeros s = Done (replicate (Z.to_nat (n s)) (replicate (Z.to_nat (m s)) 0)).
Proof.
  intros (Hn & Hm & _). unfold zeros.
  by destruct (Z.ltb_spec (n s) 0), (Z.ltb_spec (m s) 0); try lia.
Qed.

Lemma cover_tower_raises (s : CityGrid) (cg : list (list Z)) (t : tower) :
  cover_tower s cg t = Failed TypeError.
Proof. by destruct t as [[x y] r]. Qed.

(** X13.  [visualize_coverage] draws only for an empty registry, and then
    a grid of zeros with no marker.  As soon as the registry holds a tower
    the call raises [TypeError] before any drawing command is issued: the
    tower's range, unpacked into the local [range], is what
    [range(-range, range+1)] calls. *)
Theorem visualize_coverage_ends (s : CityGrid) :
  shaped s →
  (towers s = [] →
   visualize_coverage s
   = ([ImshowCoverage
         (replicate (Z.to_nat (n s)) (replicate (Z.to_nat (m s)) 0))
         Blues false; Show], Finished)) ∧
  (towers s ≠ [] → visualize_coverage s = ([], Crashed TypeError)).
Proof.
  intros Hs. unfold visualize_coverage, markers.
  rewrite (zeros_shaped s Hs). simpl. split.
  - by intros ->.
  - intros Hts. destruct (towers s) as [|t ts]; [done|].
    simpl. by rewrite cover_tower_raises.
Qed.

Lemma visualize_coverage_ends_witness :
  visualize_coverage (open_city 3 3 [(1, 1, 1)]) = ([], Crashed TypeError).
Proof.
  destruct (visualize_coverage_ends (open_city 3 3 [(1, 1, 1)])) as [_ Hts].
  - repeat split; simpl; try lia. repeat constructor.
  - by apply Hts.
Defined.

(** X14.  [visualize_path] prints its message for [None] and draws the
    grid under an empty overlay for an empty path; for any other path it
    raises before it draws: [IndexError] when the first index is outside
    the registry, and otherwise [TypeError], for the same call of the
    local [range]. *)
Theorem visualize_path_ends (s : CityGrid) :
  shaped s →
  visualize_path s None = ([PrintNoPath], Finished) ∧
  visualize_path s (Some [])
  = ([ImshowGrid (grid s) Gray;
      ImshowCoverage
        (replicate (Z.to_nat (n s)) (replicate (Z.to_nat (m s)) 0))
        Blues true] ++ markers s ++ [Show], Finished) ∧
  ∀ i rest,
    let len := Z.of_nat (length (towers s)) in
    (- len ≤ i < len →
     visualize_path s (Some (i :: rest)) = ([], Crashed TypeError)) ∧
    (¬ (- len ≤ i < len) →
     visualize_path s (Some (i :: rest)) = ([], Crashed (Known IndexError))).
Proof.
  intros Hs. unfold visualize_path. rewrite (zeros_shaped s Hs). simpl.
  split_and!; [done..|].
  intros i rest. set (len := Z.of_nat (length (towers s))).
  unfold cover_hop, tower_at. fold len.
  split.
  - intros Hi.
    destruct (Z.ltb_spec i 0).
    + destruct (Z.leb_spec 0 (i + len)); [|lia].
      destruct (lookup_lt_is_Some_2 (towers s) (Z.to_nat (i + len)))
        as [t Ht]; [lia|].
      rewrite Ht. simpl. by rewrite cover_tower_raises.
    + destruct (Z.leb_spec 0 i); [|lia].
      destruct (lookup_lt_is_Some_2 (towers s) (Z.to_nat i)) as [t Ht];
        [lia|].
      rewrite Ht. simpl. by rewrite cover_tower_raises.
  - intros Hi.
    destruct (Z.ltb_spec i 0).
    + destruct (Z.leb_spec 0 (i + len)); [lia|done].
    + destruct (Z.leb_spec 0 i); [|lia].
      rewrite lookup_ge_None_2 by lia. done.
Qed.

Lemma visualize_path_ends_witness :
  visualize_path (open_city 3 3 [(1, 1, 1)]) (Some [-1; 0])
  = ([], Crashed TypeError).
Proof.
  destruct (visualize_path_ends (open_city 3 3 [(1, 1, 1)]))
    as (_ & _ & Hhop).
  - repeat split; simpl; try lia. repeat constructor.
  - apply (Hhop (-1) [0]). simpl. lia.
Defined.

Lemma found_path_first (s : CityGrid) (start end_ : Z) (path : list Z) :
  find_reliable_path s start end_ = Ok (Some path) →
  ∃ rest, path = start :: rest ∧ 0 ≤ start < Z.of_nat (length (towers s)).
Proof.
  intros Hpath.
  pose proof (find_reliable_path_spec s start end_) as Hspec.
  simpl in Hspec. rewrite Hpath in Hspec.
  destruct Hspec as (d & Hwalk & _).
  destruct (find_reliable_path_nodes _ _ _ _ Hpath) as [Hs _].
  destruct (walk_head _ _ _ _ _ Hwalk) as [rest ->].
  exists rest. split; [done|]. by apply build_graph_node_index.
Qed.

(** X15.  The result of a search is never drawn as a path: whatever
    [find_reliable_path] returns, [visualize_path] on it prints the message
    when it is [None] and raises [TypeError], with nothing drawn, when it
    is a path. *)
Theorem visualize_path_after_search (s : CityGrid) (start end_ : Z)
    (r : option (list Z)) :
  shaped s → find_reliable_path s start end_ = Ok r →
  visualize_path s r =
    match r with
    | None => ([PrintNoPath], Finished)
    | Some _ => ([], Crashed TypeError)
    end.
Proof.
  intros Hs Hr. destruct r as [path|]; [|done].
  apply found_path_first in Hr as (rest & -> & Hstart).
  unfold visualize_path. rewrite (zeros_shaped s Hs). simpl.
  unfold cover_hop, tower_at.
  destruct (Z.ltb_spec start 0); [lia|].
  destruct (Z.leb_spec 0 start); [|lia].
  destruct (lookup_lt_is_Some_2 (towers s) (Z.to_nat start)) as [t Ht];
    [lia|].
  rewrite Ht. simpl. by rewrite cover_tower_raises.
Qed.

Lemma visualize_path_after_search_witness :
  visualize_path (open_city 10 10 [(3, 4, 2); (5, 5, 3); (7, 5, 2)])
    (Some [0; 1; 2])
  = ([], Crashed TypeError).
Proof.
  apply (visualize_path_after_search
           (open_city 10 10 [(3, 4, 2); (5, 5, 3); (7, 5, 2)]) 0 2
           (Some [0; 1; 2])).
  - repeat split; simpl; try lia. repeat constructor.
  - vm_compute. reflexivity.
Defined.

(** ** The script *)

Lemma optimize_reference_completion (fuel : nat) (budget : Z)
    (tys : list tower_type) (s : CityGrid) :
  (optimize_reference fuel budget tys s).2 = Returned ∨
  (optimize_reference fuel budget tys s).2 = FuelSpent.
Proof.
  revert s. induction tys as [|t tys IH]; intros s; simpl; [by left|].
  pose proof (place_first_uncovered_completion fuel t s budget) as Hc.
  destruct (place_first_uncovered fuel t s budget) as [s' c].
  simpl in Hc. destruct Hc as [->| ->]; [apply IH|by right].
Qed.

(** With a tower in the registry the optimiser returns normally. *)
Lemma optimize_returns (s : CityGrid) (budget : Z) (tys : list tower_type) :
  shaped s → towers s ≠ [] →
  ∃ s', optimize_tower_placement s budget tys = (s', Returned) ∧
        shaped s' ∧ towers s' ≠ [].
Proof.
  intros Hs Hts.
  pose proof (optimize_types_reference (loop_bound s) budget tys s None
                Hs Hts) as Href.
  pose proof (optimize_types_ends (loop_bound s) budget tys s None
                (open_cells_bound s)) as Hends.
  pose proof (optimize_types_grows (loop_bound s) budget tys s None) as Hg.
  pose proof (optimize_reference_completion (loop_bound s) budget tys s)
    as Hc.
  unfold optimize_tower_placement.
  destruct (optimize_types (loop_bound s) budget tys s None) as [[s' d] c].
  simpl in *. rewrite <- Href in Hc. simpl in Hc.
  destruct Hc as [->|?]; [|done].
  exists s'. split_and!; [done|by eapply grows_shaped|].
  apply grows_fresh in Hg as (added & -> & _). by destruct (towers s).
Qed.

Lemma first_uncovered_some (s : CityGrid) (c : Z * Z) :
  c ∈ cells s → uncovered s c = true → first_uncovered s ≠ None.
Proof.
  intros Hc Hu Hnone. unfold first_uncovered in Hnone.
  apply head_None in Hnone.
  assert (Hin : c ∈ filter (λ c, uncovered s c = true) (cells s))
    by by apply list_elem_of_filter.
  rewrite Hnone in Hin. by apply elem_of_nil in Hin.
Qed.

(** What [place_tower] makes of a cell inside the grid whose entry is
    [b]. *)
Lemma place_tower_on (s : CityGrid) (x y r : Z) (b : bool) :
  shaped s → 0 ≤ x < n s → 0 ≤ y < m s → grid_at s x y = Ok b →
  place_tower s x y r
  = Ok (set_towers s (towers s ++ if b then [(x, y, r)] else [])).
Proof.
  intros Hs Hx Hy Hg. destruct b.
  - by apply place_tower_inside.
  - rewrite app_nil_r, place_tower_rejected; [by destruct s|done|].
    intros (_ & _ & Hg'). by rewrite Hg in Hg'.
Qed.

(** The three ways the statements after the two [place_tower] calls end,
    and the statement that raises in each. *)
Lemma script_optimize_crashes (city : CityGrid) :
  shaped city →
  (towers city ≠ [] →
   ∃ city',
     optimize_tower_placement city 1000 demo_tower_types = (city', Returned) ∧
     visualize_coverage city' = ([], Crashed TypeError) ∧
     script_optimize city = ((visualize_grid city).1, Crashed TypeError)) ∧
  (towers city = [] → first_uncovered city ≠ None →
   optimize_tower_placement city 1000 demo_tower_types
     = (city, Raised UnboundLocalError) ∧
   script_optimize city
     = ((visualize_grid city).1, Crashed (Known UnboundLocalError))) ∧
  (towers city = [] → first_uncovered city = None →
   optimize_tower_placement city 1000 demo_tower_types = (city, Returned) ∧
   find_reliable_path city 0 1 = Raise NodeNotFound ∧
   script_optimize city
     = ((visualize_grid city).1 ++ (visualize_coverage city).1,
        Crashed (Known NodeNotFound))).
Proof.
  intros Hs. unfold script_optimize. split_and!.
  - intros Hts.
    destruct (optimize_returns city 1000 demo_tower_types Hs Hts)
      as (city' & Hopt & Hs' & Hts').
    assert (Hcov : visualize_coverage city' = ([], Crashed TypeError)).
    { unfold visualize_coverage.
      rewrite (zeros_shaped city' Hs'). cbn [mbind outcome_bind].
      destruct (towers city') as [|t ts]; [done|].
      cbn [each mbind outcome_bind]. by rewrite cover_tower_raises. }
    exists city'. split_and!; [done..|].
    rewrite Hopt. unfold script_route. rewrite Hcov. by rewrite app_nil_r.
  - intros Hnil Hcell.
    assert (Hopt : optimize_tower_placement city 1000 demo_tower_types
                   = (city, Raised UnboundLocalError)).
    { unfold optimize_tower_placement, loop_bound, demo_tower_types.
      rewrite optimize_types_cons.
      by rewrite while_budget_raises_on_empty by (done || (simpl; lia)). }
    by rewrite Hopt.
  - intros Hnil Hnone.
    assert (Hopt : optimize_tower_placement city 1000 demo_tower_types
                   = (city, Returned)).
    { unfold optimize_tower_placement, loop_bound.
      by destruct (optimize_types_no_open_cell (length (cells city)) 1000
                     demo_tower_types city None Hs Hnone) as [d ->]. }
    assert (Hpath : find_reliable_path city 0 1 = Raise NodeNotFound).
    { unfold find_reliable_path. by rewrite Hnil. }
    split_and!; [done..|].
    rewrite Hopt. unfold script_route, visualize_coverage.
    rewrite (zeros_shaped city Hs), Hnil. cbn [mbind outcome_bind each].
    by rewrite Hpath.
Qed.

(** X16.  The script at the end of the file never runs to its end,
    whatever grid the random draws give, and the draws decide by which of
    three exceptions and at which statement it stops.  [city] is the object
    after the two [place_tower] calls: it holds the towers of the script
    whose cells the draws left passable.  In every case [visualize_grid]
    has shown the grid with those towers.
    - When one of the two towers was accepted, the optimiser returns and
      [visualize_coverage] raises [TypeError] without drawing.
    - When both were rejected and the grid has a passable cell, the
      optimiser raises [UnboundLocalError] and leaves the object as it
      was.
    - When the grid has no passable cell, the optimiser returns the object
      unchanged, [visualize_coverage] shows a blank coverage map, and
      [find_reliable_path] raises [NodeNotFound]. *)
Theorem script_never_finishes (u : Z → Z → Q) :
  let passable x y := negb (Qle_bool (u x y) float_0_3) in
  let image := (λ x, passable x <$> py_range 10) <$> py_range 10 in
  let first := if passable 3 4 then [(3, 4, 2)] else [] in
  let second := if passable 7 5 then [(7, 5, 3)] else [] in
  let city :=
    {| n := 10; m := 10; grid := image; towers := first ++ second |} in
  let shown :=
    [ImshowGrid image Gray]
      ++ ((λ t : tower, Scatter t.1.2 t.1.1) <$> first ++ second)
      ++ [Show] in
  let blank := ImshowCoverage (replicate 10 (replicate 10 0)) Blues false in
  (∃ drawn e, script u = (drawn, Crashed e)) ∧
  (passable 3 4 = true ∨ passable 7 5 = true →
   script u = (shown, Crashed TypeError) ∧
   ∃ city',
     optimize_tower_placement city 1000 demo_tower_types = (city', Returned) ∧
     visualize_coverage city' = ([], Crashed TypeError)) ∧
  (passable 3 4 = false → passable 7 5 = false →
   (∃ x y, 0 ≤ x < 10 ∧ 0 ≤ y < 10 ∧ passable x y = true) →
   script u = (shown, Crashed (Known UnboundLocalError)) ∧
   optimize_tower_placement city 1000 demo_tower_types
     = (city, Raised UnboundLocalError)) ∧
  ((∀ x y, 0 ≤ x < 10 → 0 ≤ y < 10 → passable x y = false) →
   script u = (shown ++ [blank; Show], Crashed (Known NodeNotFound)) ∧
   optimize_tower_placement city 1000 demo_tower_types = (city, Returned) ∧
   visualize_coverage city = ([blank; Show], Finished) ∧
   find_reliable_path city 0 1 = Raise NodeNotFound).
Proof.
  intros passable image first second city shown blank.
  set (city0 := {| n := 10; m := 10; grid := image; towers := [] |}).
  assert (Hinit : init 10 10 (Some float_0_3) u = Ok city0) by done.
  destruct (init_shaped _ _ _ _ _ Hinit) as (Hs0 & _ & _ & _ & Hcell).
  simpl in Hcell.
  assert (Hs : shaped city) by exact Hs0.
  assert (Hgrid : ∀ x y, 0 ≤ x < 10 → 0 ≤ y < 10 →
                         grid_at city x y = Ok (passable x y)).
  { intros x y Hx Hy. change (grid_at city0 x y = Ok (passable x y)).
    by rewrite Hcell. }
  assert (Hrun : script u = script_optimize city).
  { unfold script. rewrite Hinit.
    rewrite (place_tower_on city0 3 4 2 (passable 3 4))
      by (done || (simpl; lia) || (apply Hgrid; lia)).
    rewrite (place_tower_on _ 7 5 3 (passable 7 5))
      by (done || (simpl; lia) || (apply Hgrid; lia)).
    done. }
  assert (Hshown : (visualize_grid city).1 = shown) by done.
  destruct (script_optimize_crashes city Hs) as (Htype & Hunbound & Hnode).
  rewrite Hrun, <- Hshown.
  split_and!.
  - destruct (decide (towers city = [])) as [Hnil|Hts].
    + destruct (decide (first_uncovered city = None)) as [Hnone|Hsome].
      * destruct (Hnode Hnil Hnone) as (_ & _ & ->). by eexists _, _.
      * destruct (Hunbound Hnil Hsome) as (_ & ->). by eexists _, _.
    + destruct (Htype Hts) as (city' & _ & _ & ->). by eexists _, _.
  - intros Hpass.
    assert (Hts : towers city ≠ []).
    { simpl. unfold first, second.
      destruct Hpass as [-> | ->]; [done|by destruct (passable 3 4)]. }
    destruct (Htype Hts) as (city' & Hopt & Hcov & ->).
    split; [done|by exists city'].
  - intros H34 H75 (x & y & Hx & Hy & Hxy).
    assert (Hnil : towers city = []).
    { simpl. unfold first, second. by rewrite H34, H75. }
    destruct (Hunbound Hnil) as (Hopt & ->); [|done].
    apply (first_uncovered_some city (x, y)).
    + by apply elem_of_cells.
    + unfold uncovered. cbn [fst snd]. rewrite Hgrid, Hxy by done.
      by rewrite Hnil.
  - intros Hshut.
    assert (Hnil : towers city = []).
    { simpl. unfold first, second. by rewrite !Hshut by lia. }
    destruct (Hnode Hnil) as (Hopt & Hpath & ->).
    { apply first_uncovered_none. intros [x y] [Hx Hy]%elem_of_cells.
      unfold uncovered. cbn [fst snd].
      by rewrite Hgrid, Hshut by done. }
    assert (Hcov : visualize_coverage city = ([blank; Show], Finished)).
    { unfold visualize_coverage, markers.
      by rewrite (zeros_shaped city Hs), Hnil. }
    by rewrite Hcov.
Qed.

Lemma script_never_finishes_witness :
  script (λ _ _, 1 # 2)
    = ([ImshowGrid (replicate 10 (replicate 10 true)) Gray;
        Scatter 4 3; Scatter 5 7; Show], Crashed TypeError)
  ∧ script (λ x y, if decide ((x, y) = (0, 0)) then 1 # 2 else 0%Q)
    = ([ImshowGrid
          ((true :: replicate 9 false) :: replicate 9 (replicate 10 false))
          Gray; Show], Crashed (Known UnboundLocalError))
  ∧ script (λ _ _, 0%Q)
    = ([ImshowGrid (replicate 10 (replicate 10 false)) Gray; Show;
        ImshowCoverage (replicate 10 (replicate 10 0)) Blues false; Show],
       Crashed (Known NodeNotFound)).
Proof.
  split_and!.
  - destruct (script_never_finishes (λ _ _, 1 # 2)) as (_ & Htype & _).
    destruct Htype as [-> _]; [by left|done].
  - destruct (script_never_finishes
                (λ x y, if decide ((x, y) = (0, 0)) then 1 # 2 else 0%Q))
      as (_ & _ & Hunbound & _).
    destruct Hunbound as [-> _]; [done|done| |done].
    exists 0, 0. by split_and!.
  - destruct (script_never_finishes (λ _ _, 0%Q)) as (_ & _ & _ & Hnode).
    destruct Hnode as [-> _]; [|done].
    by intros x y _ _.
Defined.

(** ** The optimiser spreads its towers *)

Lemma grows_spread (s s' : CityGrid) :
  grows s s' →
  ∃ added, towers s' = towers s ++ added ∧ spread (towers s) added.
Proof.
  induction 1 as [s|s s' x y r Hc Hu _ (added & Heq & Hspread)].
  - exists []. rewrite app_nil_r. split; [done|]. by intros k a.
  - exists ((x, y, r) :: added). simpl in Heq, Hspread.
    rewrite Heq, <- app_assoc. split; [done|].
    intros [|k] a; simpl.
    + intros [= <-] t. rewrite app_nil_r. simpl.
      apply uncovered_spec in Hu as [_ Hcount].
      rewrite coverageCount_zero in Hcount. apply Hcount.
    + intros Ha t Ht. apply (Hspread k a Ha).
      by rewrite <- app_assoc.
Qed.

Lemma reaches_false (a t : tower) :
  reaches a.1.1 a.1.2 t = false ↔ t.2 ^ 2 < sq_dist t a.
Proof.
  unfold reaches. rewrite (sq_dist_sym t a). unfold sq_dist.
  rewrite Z.leb_gt. done.
Qed.

(** X17.  A tower the optimiser adds is built out of the range of every
    tower that stands before it in the registry, so an edge between the
    two exists exactly when the later tower's own range reaches the
    earlier one.  With a single tower type all added towers have the same
    range, and no two of them are joined by an edge. *)
Theorem optimize_spreads (s : CityGrid) (budget : Z) (tys : list tower_type) :
  let s' := (optimize_tower_placement s budget tys).1 in
  let G := build_graph (towers s') in
  (∀ (i j : nat) (ti tj : tower),
     (i < j)%nat → (length (towers s) ≤ j)%nat →
     towers s' !! i = Some ti → towers s' !! j = Some tj →
     ti.2 ^ 2 < sq_dist ti tj ∧
     (edge_weight G (Z.of_nat i) (Z.of_nat j) = Some (sq_dist ti tj) ↔
      sq_dist ti tj ≤ tj.2 ^ 2)) ∧
  (∀ (t : tower_type) (i j : nat),
     tys = [t] → (length (towers s) ≤ i)%nat → (i < j)%nat →
     (j < length (towers s'))%nat →
     edge_weight G (Z.of_nat i) (Z.of_nat j) = None).
Proof.
  intros s' G.
  pose proof (optimize_types_grows (loop_bound s) budget tys s None) as Hg.
  destruct (grows_spread _ _ Hg) as (added & Heq & Hspread).
  fold (optimize_tower_placement s budget tys).1 in Heq.
  change ((optimize_types (loop_bound s) budget tys s None).1.1)
    with s' in Heq.
  assert (Hfar : ∀ (i j : nat) (ti tj : tower),
    (i < j)%nat → (length (towers s) ≤ j)%nat →
    towers s' !! i = Some ti → towers s' !! j = Some tj →
    ti.2 ^ 2 < sq_dist ti tj).
  { intros i j ti tj Hij Hj Hti Htj.
    apply reaches_false.
    apply (Hspread (j - length (towers s))%nat tj).
    - by rewrite Heq, lookup_app_r in Htj.
    - rewrite <- take_app_ge, <- Heq by done.
      apply elem_of_take. by exists i. }
  assert (Hedge : ∀ (i j : nat) (ti tj : tower) w,
    (i < j)%nat → towers s' !! i = Some ti → towers s' !! j = Some tj →
    edge_weight G (Z.of_nat i) (Z.of_nat j) = Some w ↔
    w = sq_dist ti tj ∧ (w ≤ ti.2 ^ 2 ∨ w ≤ tj.2 ^ 2)).
  { intros i j ti tj w Hij Hti Htj.
    apply build_graph_edge; [lia|by apply lookup_enumerate..]. }
  split.
  - intros i j ti tj Hij Hj Hti Htj.
    pose proof (Hfar i j ti tj Hij Hj Hti Htj) as Hlt.
    split; [done|]. rewrite (Hedge i j ti tj) by done.
    split; [intros [_ [?|?]]; [lia|done]|by auto].
  - intros t i j -> Hi Hij Hj.
    destruct (lookup_lt_is_Some_2 (towers s') i) as [ti Hti]; [lia|].
    destruct (lookup_lt_is_Some_2 (towers s') j) as [tj Htj]; [done|].
    pose proof (Hfar i j ti tj Hij ltac:(lia) Hti Htj) as Hlt.
    destruct (optimize_types_ranges (loop_bound s) budget [t] s None)
      as (added' & Heq' & Hranges).
    change ((optimize_types (loop_bound s) budget [t] s None).1.1)
      with s' in Heq'.
    assert (added' = added) as ->.
    { rewrite Heq in Heq'. by apply app_inv_head in Heq'. }
    assert (Hrange : ∀ k a, (length (towers s) ≤ k)%nat →
                            towers s' !! k = Some a → a.2 = range t).
    { intros k a Hk Ha. rewrite Heq, lookup_app_r in Ha by done.
      rewrite Forall_forall in Hranges.
      destruct (Hranges a) as (t' & ->%list_elem_of_singleton & Hr);
        [by eapply list_elem_of_lookup_2|done]. }
    destruct (edge_weight G (Z.of_nat i) (Z.of_nat j)) as [w|] eqn:Hw;
      [|done].
    apply (Hedge i j ti tj) in Hw as [-> Hw]; [|done..].
    rewrite (Hrange i ti), (Hrange j tj) in * by (done || lia). lia.
Qed.

Lemma optimize_spreads_witness :
  edge_weight
    (build_graph
       (towers (optimize_tower_placement (open_city 1 4 [(0, 0, 0)]) 2
                  [{| range := 1; coverage := 1; cost := 1 |}]).1))
    1 2 = None.
Proof.
  destruct (optimize_spreads (open_city 1 4 [(0, 0, 0)]) 2
              [{| range := 1; coverage := 1; cost := 1 |}]) as [_ Hone].
  apply (Hone {| range := 1; coverage := 1; cost := 1 |} 1%nat 2%nat);
    [done|simpl; lia|lia|vm_compute; lia].
Defined.

(** ** Placing by hand *)

(** X18.  [place_tower] looks at the grid only, never at the registry: on a
    passable cell inside the grid a second call is accepted although the
    first tower already stands there, and the registry ends with both
    towers in the order of the calls. *)
Theorem place_tower_twice (s : CityGrid) (x y r r' : Z) :
  0 ≤ x < n s → 0 ≤ y < m s → grid_at s x y = Ok true →
  ∃ s1 s2,
    place_tower s x y r = Ok s1 ∧ place_tower s1 x y r' = Ok s2 ∧
    towers s2 = towers s ++ [(x, y, r); (x, y, r')] ∧
    ¬ NoDup (site <$> towers s2).
Proof.
  intros Hx Hy Hg.
  exists (set_towers s (towers s ++ [(x, y, r)])).
  exists (set_towers s ((towers s ++ [(x, y, r)]) ++ [(x, y, r')])).
  split_and!.
  - by apply place_tower_inside.
  - by rewrite place_tower_inside.
  - simpl. by rewrite <- app_assoc.
  - simpl. rewrite <- app_assoc, fmap_app. simpl.
    intros (_ & _ & Hdup)%NoDup_app.
    apply NoDup_cons_1_1 in Hdup. apply Hdup. by left.
Qed.

Lemma place_tower_twice_witness :
  ∃ s1 s2,
    place_tower (open_city 2 2 []) 1 1 3 = Ok s1 ∧
    place_tower s1 1 1 4 = Ok s2 ∧
    towers s2 = [] ++ [(1, 1, 3); (1, 1, 4)] ∧
    ¬ NoDup (site <$> towers s2).
Proof.
  apply (place_tower_twice (open_city 2 2 []) 1 1 3 4);
    (simpl; lia) || reflexivity.
Defined.
